(** * zashboard: flow-graph aggregation and visibility-driven menu activation

    A shallow embedding of the script parts of two Vue components:

    - [src/components/overview/TopologyCharts.vue]: the computed property
      [sankeyData] (with its local closure [addNode]) and the tooltip helper
      [getNodeTypeName];
    - the settings page shell: [menuItems], [getNextMenuKey],
      [getPrevMenuKey], [updateActiveMenuByVisibility],
      [debouncedUpdateActiveMenu], [setupIntersectionObservers] and the
      intersection callback.

    JavaScript [Map] objects iterate in insertion order, and both components
    rely on that order (node ids, scan order of the visibility map), so maps
    are modelled as insertion-ordered association lists.  Numbers that are
    node ids, weights, timer ids and milliseconds are [nat]; array indices
    that may be [-1] are [Z]; intersection ratios are the rationals denoted
    by finite IEEE doubles ([Q]), on which the code only ever compares. *)

From Stdlib Require Import List String Ascii Bool Arith ZArith QArith Lia.
From Stdlib Require Import Decimal DecimalNat DecimalString Permutation.
Import ListNotations.

Close Scope Q_scope.
Close Scope Z_scope.
Open Scope nat_scope.

(* ================================================================= *)
(** * JavaScript values shared by both components *)

Module JS.

(** [a || d] on strings: [undefined] and the empty string are falsy. *)
Definition or_string (a : option string) (d : string) : string :=
  match a with
  | Some EmptyString => d
  | Some s => s
  | None => d
  end.

(** Truthiness of an optional string, as tested by [c ? x : y]. *)
Definition truthy_string (a : option string) : bool :=
  match a with
  | Some EmptyString => false
  | Some _ => true
  | None => false
  end.

(** [a || d] on arrays: every array, also the empty one, is truthy. *)
Definition or_array {A : Type} (a : option (list A)) (d : list A) : list A :=
  match a with
  | Some l => l
  | None => d
  end.

(** [a || d] on numbers: [undefined] and [0] are falsy. *)
Definition or_number (a : option nat) (d : nat) : nat :=
  match a with
  | Some (S n) => S n
  | _ => d
  end.

(** Truthiness of a number, as tested by [if (updateTimer)]. *)
Definition truthy_number (n : nat) : bool := negb (n =? 0).

(** [String(n)] for a natural number: its decimal digits. *)
Definition String_ (n : nat) : string :=
  NilEmpty.string_of_uint (Nat.to_uint n).

(** [Number(s)] on the strings made of decimal digits only (the empty
    string gives 0); [None] stands for every other outcome. *)
Definition Number_ (s : string) : option nat :=
  option_map Nat.of_uint (NilEmpty.uint_of_string s).

(** [s.split(sep)] for a one-character separator: the pieces between the
    separators, at least one piece. *)
Fixpoint split (sep : ascii) (s : string) : list string :=
  match s with
  | EmptyString => [EmptyString]
  | String c rest =>
      if Ascii.eqb c sep then EmptyString :: split sep rest
      else match split sep rest with
           | [] => [String c EmptyString]
           | piece :: pieces => String c piece :: pieces
           end
  end.

(** [arr[i]], [None] standing for [undefined]. *)
Definition index {A : Type} (arr : list A) (i : nat) : option A :=
  nth_error arr i.

(** [arr.findIndex(x => x === key)]: first position, [-1] when absent. *)
Fixpoint findIndex {A : Type} (eqb : A -> A -> bool) (key : A)
         (arr : list A) : Z :=
  match arr with
  | [] => (-1)%Z
  | x :: rest =>
      if eqb x key then 0%Z
      else let i := findIndex eqb key rest in
           if (i <? 0)%Z then (-1)%Z else (i + 1)%Z
  end.

(** [arr[i]] for an integer index. *)
Definition indexZ {A : Type} (arr : list A) (i : Z) : option A :=
  if (i <? 0)%Z then None else nth_error arr (Z.to_nat i).

End JS.

(* ================================================================= *)
(** * [Map]: insertion-ordered finite maps *)

Module JSMap.

Definition t (K V : Type) := list (K * V).

Definition empty {K V : Type} : t K V := [].

(** [m.clear()]. *)
Definition clear {K V : Type} (m : t K V) : t K V := [].

(** [Array.from(m.entries())] and the order visited by [m.forEach]. *)
Definition entries {K V : Type} (m : t K V) : list (K * V) := m.

Definition keys {K V : Type} (m : t K V) : list K := map fst m.

Section Ops.
Context {K V : Type}.
Variable eqb : K -> K -> bool.

(** [m.get(k)], [None] standing for [undefined]. *)
Fixpoint get (k : K) (m : t K V) : option V :=
  match m with
  | [] => None
  | (k', v) :: rest => if eqb k' k then Some v else get k rest
  end.

(** [m.has(k)]. *)
Definition has (k : K) (m : t K V) : bool :=
  match get k m with Some _ => true | None => false end.

(** [m.set(k, v)]: an existing key keeps its position and gets the new
    value, a new key goes to the end. *)
Fixpoint set (k : K) (v : V) (m : t K V) : t K V :=
  match m with
  | [] => [(k, v)]
  | (k', v') :: rest =>
      if eqb k' k then (k', v) :: rest else (k', v') :: set k v rest
  end.

(** [m.delete(k)]. *)
Fixpoint delete (k : K) (m : t K V) : t K V :=
  match m with
  | [] => []
  | (k', v') :: rest =>
      if eqb k' k then rest else (k', v') :: delete k rest
  end.

End Ops.
End JSMap.

(* ================================================================= *)
(** * TopologyCharts.vue *)

Module Topology.

(** The fields of a connection that the component reads.  [sourceIP] is
    [conn.metadata.sourceIP]; the three fields the code guards with
    [||] or [?:] may be absent. *)
Record Connection := {
  sourceIP : option string;
  rule : string;
  rulePayload : option string;
  chains : option (list string)
}.

Definition layerColors : list string :=
  ["#5470c6"; "#91cc75"; "#fac858"; "#ee6666"]%string.

(** The three maps and the counter local to [sankeyData]. *)
Record Agg := {
  nodeMap : JSMap.t string nat;
  linkMap : JSMap.t string nat;
  layerMap : JSMap.t string nat;
  nodeIndex : nat
}.

Definition Agg0 : Agg :=
  {| nodeMap := JSMap.empty; linkMap := JSMap.empty;
     layerMap := JSMap.empty; nodeIndex := 0 |}.

(** [addNode(name, layer)]: registers [name] when it is new, and returns
    [nodeMap.get(name)!]. *)
Definition addNode (name : string) (layer : nat) (a : Agg) : nat * Agg :=
  let a' :=
    if negb (JSMap.has String.eqb name (nodeMap a)) then
      {| nodeMap := JSMap.set String.eqb name (nodeIndex a) (nodeMap a);
         linkMap := linkMap a;
         layerMap := JSMap.set String.eqb name layer (layerMap a);
         nodeIndex := S (nodeIndex a) |}
    else a in
  (match JSMap.get String.eqb name (nodeMap a') with
   | Some i => i
   | None => 0
   end, a').

(** The template literal [`${s}-${t}`]. *)
Definition linkKey (s t : nat) : string :=
  (JS.String_ s ++ "-" ++ JS.String_ t)%string.

(** [linkMap.set(link, (linkMap.get(link) || 0) + 1)]. *)
Definition bump (link : string) (a : Agg) : Agg :=
  {| nodeMap := nodeMap a;
     linkMap :=
       JSMap.set String.eqb link
         (JS.or_number (JSMap.get String.eqb link (linkMap a)) 0 + 1)
         (linkMap a);
     layerMap := layerMap a;
     nodeIndex := nodeIndex a |}.

(** [conn.rulePayload ? `${conn.rule}: ${conn.rulePayload}` : conn.rule] *)
Definition ruleLabel (conn : Connection) : string :=
  if JS.truthy_string (rulePayload conn)
  then (rule conn ++ ": " ++ JS.or_string (rulePayload conn) "")%string
  else rule conn.

Definition sourceLabel (conn : Connection) : string :=
  JS.or_string (sourceIP conn) "Unknown".

Definition chainsOf (conn : Connection) : list string :=
  JS.or_array (chains conn) [].

(** [chains[chains.length - 1]] and [chains[0]], on a non-empty array. *)
Definition chainLastOf (conn : Connection) : string :=
  last (chainsOf conn) EmptyString.

Definition chainFirstOf (conn : Connection) : string :=
  hd EmptyString (chainsOf conn).

(** The body of the [forEach] callback of [sankeyData]. *)
Definition processConn (a : Agg) (conn : Connection) : Agg :=
  let sourceIP := sourceLabel conn in
  let rulePayload := ruleLabel conn in
  let chains := chainsOf conn in
  if List.length chains =? 0 then a else
  let chainLast := chainLastOf conn in
  let chainFirst := chainFirstOf conn in
  let '(sourceNode, a1) := addNode sourceIP 0 a in
  let '(ruleNode, a2) := addNode rulePayload 1 a1 in
  let '(chainLastNode, a3) := addNode chainLast 2 a2 in
  let '(chainFirstNode, a4) := addNode chainFirst 3 a3 in
  let link1 := linkKey sourceNode ruleNode in
  let link2 := linkKey ruleNode chainLastNode in
  let link3 := linkKey chainLastNode chainFirstNode in
  bump link3 (bump link2 (bump link1 a4)).

(** The state of the three maps once the [forEach] is over. *)
Definition aggregate (connections : list Connection) : Agg :=
  fold_left processConn connections Agg0.

Record Node := {
  id : nat;
  name : string;
  color : option string      (* itemStyle.color *)
}.

Record Link := {
  source : option nat;
  target : option nat;
  value : nat
}.

Record SankeyData := {
  nodes : list Node;
  links : list Link
}.

Definition mkNode (a : Agg) (entry : string * nat) : Node :=
  let '(name, index) := entry in
  {| id := index;
     name := name;
     color :=
       JS.index layerColors
         (JS.or_number (JSMap.get String.eqb name (layerMap a)) 0) |}.

Definition mkLink (entry : string * nat) : Link :=
  let '(link, value) := entry in
  let parts := map JS.Number_ (JS.split "-" link) in
  {| source := match JS.index parts 0 with Some n => n | None => None end;
     target := match JS.index parts 1 with Some n => n | None => None end;
     value := value |}.

(** [sankeyData]; [None] is a null or undefined connection list. *)
Definition sankeyData (connections : option (list Connection)) : SankeyData :=
  match connections with
  | None => {| nodes := []; links := [] |}
  | Some conns =>
      if List.length conns =? 0 then {| nodes := []; links := [] |} else
      let a := aggregate conns in
      {| nodes := map (mkNode a) (JSMap.entries (nodeMap a));
         links := map mkLink (JSMap.entries (linkMap a)) |}
  end.

(** The message keys that [getNodeTypeName] hands to the translation
    function [t]; the translated text is the i18n library's. *)
Inductive MessageKey :=
| sourceIPAddress
| ruleMatch
| proxyChainEntry
| proxyChainExit
| unknown.

(** The [for ... of] loop of [getNodeTypeName]. *)
Fixpoint scanNodeType (name : string) (conns : list Connection)
  : MessageKey :=
  match conns with
  | [] => unknown
  | conn :: rest =>
      let sourceIP := sourceLabel conn in
      let rulePayload := ruleLabel conn in
      let chains := chainsOf conn in
      if List.length chains =? 0 then scanNodeType name rest else
      let chainLast := chainLastOf conn in
      let chainFirst := chainFirstOf conn in
      if String.eqb name sourceIP then sourceIPAddress
      else if String.eqb name rulePayload then ruleMatch
      else if String.eqb name chainLast then proxyChainEntry
      else if String.eqb name chainFirst then proxyChainExit
      else scanNodeType name rest
  end.

(** [getNodeTypeName(name)], as the key passed to [t]. *)
Definition getNodeTypeName (connections : option (list Connection))
           (name : string) : MessageKey :=
  match connections with
  | None => unknown
  | Some conns =>
      if List.length conns =? 0 then unknown else scanNodeType name conns
  end.

End Topology.

(* ================================================================= *)
(** * The settings page: menu cycling and visibility-driven activation *)

Module Settings.

Inductive MenuKey :=
| general
| backend
| proxies
| connections
| overview.

(** [===] on menu keys. *)
Definition MenuKey_eqb (a b : MenuKey) : bool :=
  match a, b with
  | general, general | backend, backend | proxies, proxies
  | connections, connections | overview, overview => true
  | _, _ => false
  end.

(** The keys of the computed [menuItems], in order; labels, icons and
    components play no part in the logic. *)
Definition menuItemsOf (splitOverviewPage : bool) : list MenuKey :=
  let items := [general; backend; proxies; connections] in
  if splitOverviewPage then items ++ [overview]   (* push *)
  else overview :: items.                          (* unshift *)

(** [x > y] and [x >= y] on ratios. *)
Definition Qgtb (x y : Q) : bool := negb (Qle_bool x y).
Definition Qgeb (x y : Q) : bool := Qle_bool y x.

(** The double written [0.3] in the source: 0x13333333333333 / 2^54. *)
Definition threshold : Q := 5404319552844595 # 18014398509481984.

(** The quiet interval handed to [setTimeout], in milliseconds. *)
Definition quiet : nat := 100.

(** The reactive state of the component, the timers of the event loop that
    its callbacks are queued on, and one history variable. *)
Record State := {
  menuItems : list MenuKey;            (* menuItems.value *)
  isMiddleScreen : bool;               (* isMiddleScreen.value *)
  scrollContainerRef : bool;           (* is scrollContainerRef.value set *)
  activeMenuKey : MenuKey;             (* activeMenuKey.value *)
  visibilityRatios : JSMap.t MenuKey Q;
  updateTimer : option nat;            (* null, or a timer id *)
  now : nat;                           (* clock, in milliseconds *)
  timers : list (nat * nat);           (* pending timeouts: (id, due) *)
  nextTimerId : nat;                   (* next id setTimeout hands out *)
  recomputations : list (JSMap.t MenuKey Q)
    (* history: the map read by each run of the debounce callback *)
}.

Definition withActive (k : MenuKey) (st : State) : State :=
  {| menuItems := menuItems st; isMiddleScreen := isMiddleScreen st;
     scrollContainerRef := scrollContainerRef st; activeMenuKey := k;
     visibilityRatios := visibilityRatios st;
     updateTimer := updateTimer st; now := now st; timers := timers st;
     nextTimerId := nextTimerId st;
     recomputations := recomputations st |}.

Definition withRatios (m : JSMap.t MenuKey Q) (st : State) : State :=
  {| menuItems := menuItems st; isMiddleScreen := isMiddleScreen st;
     scrollContainerRef := scrollContainerRef st;
     activeMenuKey := activeMenuKey st; visibilityRatios := m;
     updateTimer := updateTimer st; now := now st; timers := timers st;
     nextTimerId := nextTimerId st;
     recomputations := recomputations st |}.

Definition withUpdateTimer (t : option nat) (st : State) : State :=
  {| menuItems := menuItems st; isMiddleScreen := isMiddleScreen st;
     scrollContainerRef := scrollContainerRef st;
     activeMenuKey := activeMenuKey st;
     visibilityRatios := visibilityRatios st;
     updateTimer := t; now := now st; timers := timers st;
     nextTimerId := nextTimerId st;
     recomputations := recomputations st |}.

Definition withTimers (ts : list (nat * nat)) (next : nat) (st : State)
  : State :=
  {| menuItems := menuItems st; isMiddleScreen := isMiddleScreen st;
     scrollContainerRef := scrollContainerRef st;
     activeMenuKey := activeMenuKey st;
     visibilityRatios := visibilityRatios st;
     updateTimer := updateTimer st; now := now st; timers := ts;
     nextTimerId := next;
     recomputations := recomputations st |}.

Definition withNow (t : nat) (st : State) : State :=
  {| menuItems := menuItems st; isMiddleScreen := isMiddleScreen st;
     scrollContainerRef := scrollContainerRef st;
     activeMenuKey := activeMenuKey st;
     visibilityRatios := visibilityRatios st;
     updateTimer := updateTimer st; now := t; timers := timers st;
     nextTimerId := nextTimerId st;
     recomputations := recomputations st |}.

Definition recordRun (st : State) : State :=
  {| menuItems := menuItems st; isMiddleScreen := isMiddleScreen st;
     scrollContainerRef := scrollContainerRef st;
     activeMenuKey := activeMenuKey st;
     visibilityRatios := visibilityRatios st;
     updateTimer := updateTimer st; now := now st; timers := timers st;
     nextTimerId := nextTimerId st;
     recomputations := recomputations st ++ [visibilityRatios st] |}.

(** The component as mounted: nothing observed yet, no timer pending.
    Browsers hand out timer ids from 1. *)
Definition initial (splitOverviewPage middle container : bool) : State :=
  {| menuItems := menuItemsOf splitOverviewPage;
     isMiddleScreen := middle;
     scrollContainerRef := container;
     activeMenuKey := if splitOverviewPage then general else overview;
     visibilityRatios := JSMap.empty;
     updateTimer := None; now := 0; timers := []; nextTimerId := 1;
     recomputations := [] |}.

(** ** Menu cycling *)

(** [handleMenuClick(key)]; scrolling the card into view is the
    browser's. *)
Definition handleMenuClick (key : MenuKey) (st : State) : State :=
  withActive key st.

Definition getCurrentMenuIndex (st : State) : Z :=
  JS.findIndex MenuKey_eqb (activeMenuKey st) (menuItems st).

(** [getNextMenuKey()]; [None] is the TypeError of reading [.key] of
    [undefined]. *)
Definition getNextMenuKey (st : State) : option State :=
  let currentIndex := getCurrentMenuIndex st in
  if (currentIndex =? -1)%Z then Some st else
  let nextIndex :=
    Z.rem (currentIndex + 1) (Z.of_nat (List.length (menuItems st))) in
  match JS.indexZ (menuItems st) nextIndex with
  | Some key => Some (handleMenuClick key st)
  | None => None
  end.

(** [getPrevMenuKey()]. *)
Definition getPrevMenuKey (st : State) : option State :=
  let currentIndex := getCurrentMenuIndex st in
  if (currentIndex =? -1)%Z then Some st else
  let prevIndex :=
    Z.rem (currentIndex - 1 + Z.of_nat (List.length (menuItems st)))
          (Z.of_nat (List.length (menuItems st))) in
  match JS.indexZ (menuItems st) prevIndex with
  | Some key => Some (handleMenuClick key st)
  | None => None
  end.

(** ** Most visible region *)

(** The callback of [visibilityRatios.value.forEach], on the pair
    [(maxRatio, mostVisibleKey)]. *)
Definition scanStep (acc : Q * option MenuKey) (entry : MenuKey * Q)
  : Q * option MenuKey :=
  let '(maxRatio, mostVisibleKey) := acc in
  let '(key, ratio) := entry in
  if Qgtb ratio maxRatio then (ratio, Some key)
  else (maxRatio, mostVisibleKey).

Definition scan (m : JSMap.t MenuKey Q) : Q * option MenuKey :=
  fold_left scanStep (JSMap.entries m) (0%Q, None).

(** The key that passes [mostVisibleKey && maxRatio >= 0.3], if any. *)
Definition selectMostVisible (m : JSMap.t MenuKey Q) : option MenuKey :=
  let '(maxRatio, mostVisibleKey) := scan m in
  match mostVisibleKey with
  | Some key => if Qgeb maxRatio threshold then Some key else None
  | None => None
  end.

Definition updateActiveMenuByVisibility (st : State) : State :=
  if negb (isMiddleScreen st) || negb (scrollContainerRef st) then st else
  match selectMostVisible (visibilityRatios st) with
  | Some key =>
      if negb (MenuKey_eqb key (activeMenuKey st))
      then withActive key st else st
  | None => st
  end.

(** ** Timers *)

(** [clearTimeout(id)]. *)
Definition clearTimeout (tid : nat) (st : State) : State :=
  withTimers (filter (fun t => negb (fst t =? tid)) (timers st))
             (nextTimerId st) st.

(** [setTimeout(callback, delay)]; the only callback ever queued is the
    one of [debouncedUpdateActiveMenu]. *)
Definition setTimeout (delay : nat) (st : State) : nat * State :=
  (nextTimerId st,
   withTimers (timers st ++ [(nextTimerId st, now st + delay)])
              (S (nextTimerId st)) st).

(** The arrow function queued by [debouncedUpdateActiveMenu]. *)
Definition timerCallback (st : State) : State :=
  withUpdateTimer None (updateActiveMenuByVisibility (recordRun st)).

Definition debouncedUpdateActiveMenu (st : State) : State :=
  let st1 :=
    match updateTimer st with
    | Some tid => if JS.truthy_number tid then clearTimeout tid st else st
    | None => st
    end in
  let '(tid, st2) := setTimeout quiet st1 in
  withUpdateTimer (Some tid) st2.

(** ** Observation *)

(** The callback handed to [useIntersectionObserver] for [itemKey], on an
    entry whose [intersectionRatio] is [ratio]. *)
Definition onIntersection (itemKey : MenuKey) (ratio : Q) (st : State)
  : State :=
  let st1 :=
    if Qgtb ratio 0
    then withRatios (JSMap.set MenuKey_eqb itemKey ratio
                               (visibilityRatios st)) st
    else withRatios (JSMap.delete MenuKey_eqb itemKey
                                  (visibilityRatios st)) st in
  debouncedUpdateActiveMenu st1.

(** [setupIntersectionObservers()], on the state of this component:
    stopping the old observers and creating the new ones changes which
    intersection callbacks the browser may run, not this state. *)
Definition setupIntersectionObservers (st : State) : State :=
  withRatios (JSMap.clear (visibilityRatios st)) st.

(** ** The event loop *)

(** Time passes: the clock advances by [ms] and every timeout that is due
    by then runs, oldest first (all timeouts have the same delay, so
    queue order is due order). *)
Definition elapse (ms : nat) (st : State) : State :=
  let t := now st + ms in
  let due := filter (fun e => snd e <=? t) (timers st) in
  let rest := filter (fun e => negb (snd e <=? t)) (timers st) in
  fold_left (fun s _ => timerCallback s) due
            (withNow t (withTimers rest (nextTimerId st) st)).

Inductive Event :=
| Observe (key : MenuKey) (ratio : Q)   (* an intersection callback runs *)
| Setup                                 (* the observed keys are replaced *)
| Elapse (ms : nat).                    (* time passes *)

Definition step (st : State) (e : Event) : State :=
  match e with
  | Observe key ratio => onIntersection key ratio st
  | Setup => setupIntersectionObservers st
  | Elapse ms => elapse ms st
  end.

Definition run (events : list Event) (st : State) : State :=
  fold_left step events st.

End Settings.

(* ================================================================= *)
(** * TopologyCharts.vue: what the chart shows *)

Module TopologyView.
Import Topology.

(** The name of a message key, as written in the source. *)
Definition messageKeyName (k : MessageKey) : string :=
  match k with
  | sourceIPAddress => "sourceIPAddress"
  | ruleMatch => "ruleMatch"
  | proxyChainEntry => "proxyChainEntry"
  | proxyChainExit => "proxyChainExit"
  | unknown => "unknown"
  end.

(** The fields of [params] that the tooltip formatter reads: of a node its
    name, of an edge its two ends and its value. *)
Record Params := {
  dataType : string;
  dataName : string;
  dataSource : nat;
  dataTarget : nat;
  dataValue : nat
}.

(** [nodes.find((n) => n.id === i)]. *)
Definition findNode (nodes : list Node) (i : nat) : option Node :=
  find (fun n => id n =? i) nodes.

Section Formatter.

(** The translation function of the i18n library. *)
Variable t : string -> string.

(** [options.tooltip.formatter]. *)
Definition tooltipFormatter (connections : option (list Connection))
           (params : Params) : string :=
  if String.eqb (dataType params) "node" then
    (dataName params ++ "<br/>" ++ t "nodeType" ++ ": " ++
     t (messageKeyName (getNodeTypeName connections (dataName params))))%string
  else if String.eqb (dataType params) "edge" then
    let sourceNode :=
      findNode (nodes (sankeyData connections)) (dataSource params) in
    let targetNode :=
      findNode (nodes (sankeyData connections)) (dataTarget params) in
    match sourceNode, targetNode with
    | Some sourceNode, Some targetNode =>
        (name sourceNode ++ " → " ++ name targetNode ++ "<br/>" ++
         t "connectionCount" ++ ": " ++ JS.String_ (dataValue params))%string
    | _, _ =>
        (t "connectionCount" ++ ": " ++ JS.String_ (dataValue params))%string
    end
  else EmptyString.

End Formatter.


(** The [v-if] of the placeholder in the template. *)
Definition showPlaceholder (data : SankeyData) : bool :=
  List.length (nodes data) =? 0.

(** What [updateChartData] asks of the chart. *)
Inductive ChartAction :=
| SetSeries (data : list Node) (links : list Link)   (* myChart.setOption *)
| Clear                                              (* myChart.clear *)
| Nothing.

(** The body of [updateChartData]; [myChart] tells whether the chart
    exists. *)
Definition updateChartData (myChart : bool) (newData : SankeyData)
  : ChartAction :=
  if myChart && (0 <? List.length (nodes newData))
  then SetSeries (nodes newData) (links newData)
  else if myChart && (List.length (nodes newData) =? 0)
  then Clear
  else Nothing.

End TopologyView.

(* ================================================================= *)
(** * The settings page: swipes *)

Module SettingsSwipe.
Import Settings.

(** The value of [direction] that [useSwipe] reports. *)
Inductive Direction :=
| swipeUp
| swipeDown
| swipeLeft
| swipeRight
| swipeNone.

(** What the watcher of [direction] asks of the document. *)
Record Document := {
  dialogModal : bool;       (* document.querySelector('dialog:modal') *)
  inputActive : bool;       (* isInputActive() *)
  selectionLength : nat     (* window.getSelection()?.toString()?.length *)
}.

(** The callback of [watch(direction, ...)]; [None] is the TypeError that
    the two cycling functions could raise. *)
Definition onDirection (direction : Direction) (doc : Document) (st : State)
  : option State :=
  if negb (isMiddleScreen st) then Some st else
  if dialogModal doc || inputActive doc
     || JS.truthy_number (selectionLength doc)
  then Some st else
  match direction with
  | swipeRight => getPrevMenuKey st
  | swipeLeft => getNextMenuKey st
  | _ => Some st
  end.

End SettingsSwipe.

Import Topology Settings TopologyView SettingsSwipe.

(* ================================================================= *)
(** * Notions used to state the properties *)

(** A string holds no dash. *)
Fixpoint dashFree (s : string) : bool :=
  match s with
  | EmptyString => true
  | String c rest => negb (Ascii.eqb c "-") && dashFree rest
  end.

(** The names a record hands to [addNode], with their layers, in call
    order; none for a record that is skipped. *)
Definition occurrences (conn : Connection) : list (string * nat) :=
  match chainsOf conn with
  | [] => []
  | _ :: _ =>
      [(sourceLabel conn, 0); (ruleLabel conn, 1);
       (chainLastOf conn, 2); (chainFirstOf conn, 3)]
  end.

Definition allOccurrences (conns : list Connection) : list (string * nat) :=
  flat_map occurrences conns.

(** The layer under which a record first names [name], if it does. *)
Definition layerIn (conn : Connection) (name : string) : option nat :=
  JSMap.get String.eqb name (occurrences conn).

(** The message key shown for a layer. *)
Definition keyOfLayer (layer : option nat) : MessageKey :=
  match layer with
  | Some 0 => sourceIPAddress
  | Some 1 => ruleMatch
  | Some 2 => proxyChainEntry
  | Some 3 => proxyChainExit
  | _ => unknown
  end.

(** The id a registry gives to a name. *)
Definition nodeId (a : Agg) (n : string) : nat :=
  match JSMap.get String.eqb n (nodeMap a) with
  | Some i => i
  | None => 0
  end.

(** The three edges of a record, as pairs of ids of the registry [a]. *)
Definition edgesOf (a : Agg) (conn : Connection) : list (nat * nat) :=
  match chainsOf conn with
  | [] => []
  | _ :: _ =>
      [(nodeId a (sourceLabel conn), nodeId a (ruleLabel conn));
       (nodeId a (ruleLabel conn), nodeId a (chainLastOf conn));
       (nodeId a (chainLastOf conn), nodeId a (chainFirstOf conn))]
  end.

(** Every edge of every record, with the ids of the finished registry. *)
Definition edgeOccurrences (conns : list Connection) : list (nat * nat) :=
  flat_map (edgesOf (aggregate conns)) conns.

Definition pair_eq_dec (p q : nat * nat) : {p = q} + {p <> q}.
Proof. decide equality; apply Nat.eq_dec. Defined.

(** How often the pair [p] occurs among edges. *)
Definition occ (p : nat * nat) (edges : list (nat * nat)) : nat :=
  count_occ pair_eq_dec edges p.

(** The weight a link map holds for the pair [(s, t)], 0 when none. *)
Definition weightIn (a : Agg) (p : nat * nat) : nat :=
  JS.or_number (JSMap.get String.eqb (linkKey (fst p) (snd p)) (linkMap a)) 0.

(** The two ends of a link. *)
Definition ends (l : Link) : option nat * option nat := (source l, target l).

(** The link of the graph that joins [s] to [t]. *)
Definition linkOf (s t w : nat) : Link :=
  {| source := Some s; target := Some t; value := w |}.

(** The registry is well formed: ids are the positions, names are distinct,
    and the layer map has the same names in the same order. *)
Definition wfRegistry (a : Agg) : Prop :=
  map snd (nodeMap a) = seq 0 (List.length (nodeMap a)) /\
  nodeIndex a = List.length (nodeMap a) /\
  NoDup (JSMap.keys (nodeMap a)) /\
  JSMap.keys (layerMap a) = JSMap.keys (nodeMap a).

(** The link map is well formed: keys are distinct and each is the key of a
    pair of ids, weights are positive. *)
Definition wfLinks (a : Agg) : Prop :=
  NoDup (JSMap.keys (linkMap a)) /\
  Forall (fun e => (exists s t, fst e = linkKey s t) /\ 1 <= snd e)
         (linkMap a).

(** The registry [b] keeps every entry of [a], in place, and may have
    more after them. *)
Definition extends (a b : Agg) : Prop :=
  (exists ext, nodeMap b = nodeMap a ++ ext) /\
  (exists ext, layerMap b = layerMap a ++ ext).

(** A run of [addNode] calls. *)
Definition register (occs : list (string * nat)) (a : Agg) : Agg :=
  fold_left (fun a e => snd (addNode (fst e) (snd e) a)) occs a.

(** A run of weight increments, one per edge. *)
Definition addEdges (edges : list (nat * nat)) (a : Agg) : Agg :=
  fold_left (fun a p => bump (linkKey (fst p) (snd p)) a) edges a.

(** Two states hold the same registry (their link maps may differ). *)
Definition sameRegistry (a b : Agg) : Prop :=
  nodeMap a = nodeMap b /\ layerMap a = layerMap b /\
  nodeIndex a = nodeIndex b.

(** The graph with no node and no link. *)
Definition emptyGraph : SankeyData := {| nodes := []; links := [] |}.

(** The record is processed, not skipped. *)
Definition hasChain (conn : Connection) : bool :=
  negb (List.length (chainsOf conn) =? 0).

(** A connection with every field present. *)
Definition connection (src rule : string) (chain : list string) : Connection :=
  {| sourceIP := Some src; rule := rule; rulePayload := None;
     chains := Some chain |}.

(** The three edges of a record, by the names of their ends. *)
Definition namedEdges (conn : Connection) : list (string * string) :=
  match chainsOf conn with
  | [] => []
  | _ :: _ =>
      [(sourceLabel conn, ruleLabel conn);
       (ruleLabel conn, chainLastOf conn);
       (chainLastOf conn, chainFirstOf conn)]
  end.

Definition namePair_eq_dec (p q : string * string) : {p = q} + {p <> q}.
Proof. decide equality; apply string_dec. Defined.

(** The chain of the record is the single hop [h]. *)
Definition isSingleHop (h : string) (conn : Connection) : bool :=
  match chainsOf conn with
  | [x] => String.eqb x h
  | _ => false
  end.

(** The ids that a registry gives to the two ends of a named edge. *)
Definition idPair (a : Agg) (e : string * string) : nat * nat :=
  (nodeId a (fst e), nodeId a (snd e)).

(** The doubles written [0.25], [0.35] and [0.5]. *)
Definition ratio_0_25 : Q := 1 # 4.
Definition ratio_0_35 : Q := 3152519739159347 # 9007199254740992.
Definition ratio_0_5 : Q := 1 # 2.

(** A state of the settings page whose menu is the given list of keys. *)
Definition pageWith (items : list MenuKey) (active : MenuKey) : State :=
  {| menuItems := items; isMiddleScreen := true;
     scrollContainerRef := true; activeMenuKey := active;
     visibilityRatios := JSMap.empty;
     updateTimer := None; now := 0; timers := []; nextTimerId := 1;
     recomputations := [] |}.

(** What one observation does to the visibility map. *)
Definition observe (k : MenuKey) (r : Q) (m : JSMap.t MenuKey Q)
  : JSMap.t MenuKey Q :=
  if Qgtb r 0 then JSMap.set MenuKey_eqb k r m
  else JSMap.delete MenuKey_eqb k m.

(** A burst: observations, each followed by the time that passes before
    the next event. *)
Definition burstEvents (burst : list (MenuKey * Q * nat)) : list Event :=
  flat_map (fun b => [Observe (fst (fst b)) (snd (fst b)); Elapse (snd b)])
           burst.

(** The map after the observations of a burst. *)
Definition observations (burst : list (MenuKey * Q * nat))
           (m : JSMap.t MenuKey Q) : JSMap.t MenuKey Q :=
  fold_left (fun m b => observe (fst (fst b)) (snd (fst b)) m) burst m.

(** Every entry of the map is a ratio in (0, 1], under distinct keys. *)
Definition ratiosPositive (m : JSMap.t MenuKey Q) : Prop :=
  NoDup (JSMap.keys m) /\
  forall e, In e m -> (0 < snd e)%Q /\ (snd e <= 1)%Q.

(** The ratios that the events deliver are in [0, 1]. *)
Definition ratiosInRange (events : list Event) : Prop :=
  forall k r, In (Observe k r) events -> (0 <= r)%Q /\ (r <= 1)%Q.

(** At most one timeout is pending, and [updateTimer] names it: either no
    timeout is pending and [updateTimer] is null, or exactly one is, due
    within the quiet interval, and [updateTimer] is its id. *)
Definition timerInv (st : State) : Prop :=
  1 <= nextTimerId st /\
  ((timers st = [] /\ updateTimer st = None) \/
   (exists tid due,
      timers st = [(tid, due)] /\ updateTimer st = Some tid /\
      1 <= tid /\ tid < nextTimerId st /\
      now st < due /\ due <= now st + quiet)).

(** Lookup in a map keyed by strings. *)
#[local] Abbreviation sget := (JSMap.get String.eqb).

(** Case analysis on every test of the goal. *)
Ltac split_ifs :=
  repeat match goal with
         | |- context [if ?b then _ else _] => destruct b
         | |- context [match ?x with Some _ => _ | None => _ end] =>
             destruct x
         end.

Open Scope string_scope.
Open Scope list_scope.

(** The number of records that are processed, not skipped. *)
Definition processed (conns : list Connection) : nat :=
  List.length (filter hasChain conns).

(** The sum of the weights held by a link map. *)
Definition totalWeight (a : Agg) : nat := list_sum (map snd (linkMap a)).

(** What an edge tooltip is asked to show for the link from [s] to [t]. *)
Definition edgeParams (s t w : nat) : Params :=
  {| dataType := "edge"; dataName := EmptyString;
     dataSource := s; dataTarget := t; dataValue := w |}.

(** What a node tooltip is asked to show for the node called [n]. *)
Definition nodeParams (n : string) : Params :=
  {| dataType := "node"; dataName := n;
     dataSource := 0; dataTarget := 0; dataValue := 0 |}.

(** A document that lets swipes through. *)
Definition freeDocument : Document :=
  {| dialogModal := false; inputActive := false; selectionLength := 0 |}.

(** A swipe is let through: the screen is a middle screen and no dialog,
    input or selection holds it back. *)
Definition swipeAllowed (doc : Document) (st : State) : bool :=
  isMiddleScreen st &&
  negb (dialogModal doc || inputActive doc
        || JS.truthy_number (selectionLength doc)).

(** [j] swipes in the same direction, one after the other. *)
Fixpoint swipes (direction : Direction) (doc : Document) (j : nat)
         (st : State) : option State :=
  match j with
  | 0 => Some st
  | S j' =>
      match onDirection direction doc st with
      | Some st' => swipes direction doc j' st'
      | None => None
      end
  end.

(** Two states differ at most in the active key. *)
Definition sameButActive (st st' : State) : Prop :=
  st' = withActive (activeMenuKey st') st.

(** The map that the latest recomputation read, if one ran. *)
Definition lastRecomputed (st : State) : option (JSMap.t MenuKey Q) :=
  last (map Some (recomputations st)) None.

(** What the events so far say about the key [k]: the ratio of its latest
    observation when that ratio is above 0, nothing when it is not or when
    the observed keys were replaced since. *)
Definition latest (k : MenuKey) (events : list Event) (start : option Q)
  : option Q :=
  fold_left
    (fun acc e =>
       match e with
       | Observe k' r =>
           if MenuKey_eqb k' k
           then (if Qgtb r 0 then Some r else None)
           else acc
       | Setup => None
       | Elapse _ => acc
       end)
    events start.

(* ================================================================= *)
(** * Facts about insertion-ordered maps *)

Section MapFacts.
Context {K V : Type}.
Variable eqb : K -> K -> bool.
Hypothesis eqb_eq : forall a b, eqb a b = true <-> a = b.

Lemma eqb_refl_true k : eqb k k = true.
Proof. now apply eqb_eq. Qed.

Lemma eqb_neq_false a b : a <> b -> eqb a b = false.
Proof.
  intros H. destruct (eqb a b) eqn:E; [|reflexivity].
  apply eqb_eq in E. contradiction.
Qed.

Lemma get_None_keys (k : K) (m : JSMap.t K V) :
  JSMap.get eqb k m = None <-> ~ In k (JSMap.keys m).
Proof.
  induction m as [|[k' v] m IH]; simpl.
  - tauto.
  - destruct (eqb k' k) eqn:E.
    + apply eqb_eq in E. split; [discriminate | intros H; exfalso; auto].
    + rewrite IH. split.
      * intros H [H1|H1]; [|auto]. subst. rewrite eqb_refl_true in E.
        discriminate.
      * tauto.
Qed.

Lemma get_Some_In (k : K) (v : V) (m : JSMap.t K V) :
  JSMap.get eqb k m = Some v -> In (k, v) m.
Proof.
  induction m as [|[k' v'] m IH]; simpl; [discriminate|].
  destruct (eqb k' k) eqn:E.
  - apply eqb_eq in E. intros H. inversion H. subst. now left.
  - auto.
Qed.

Lemma In_get_Some (k : K) (v : V) (m : JSMap.t K V) :
  NoDup (JSMap.keys m) -> In (k, v) m -> JSMap.get eqb k m = Some v.
Proof.
  induction m as [|[k' v'] m IH]; simpl; [tauto|].
  intros Hnd [H|H].
  - inversion H; subst. now rewrite eqb_refl_true.
  - inversion Hnd as [|? ? Hni Hnd']; subst.
    destruct (eqb k' k) eqn:E; [|auto].
    apply eqb_eq in E. subst. exfalso. apply Hni.
    change k with (fst (k, v)). now apply in_map.
Qed.

Lemma get_app_l (k : K) (m ext : JSMap.t K V) (v : V) :
  JSMap.get eqb k m = Some v -> JSMap.get eqb k (m ++ ext) = Some v.
Proof.
  induction m as [|[k' v'] m IH]; simpl; [discriminate|].
  destruct (eqb k' k); auto.
Qed.

Lemma get_app_r (k : K) (m ext : JSMap.t K V) :
  JSMap.get eqb k m = None ->
  JSMap.get eqb k (m ++ ext) = JSMap.get eqb k ext.
Proof.
  induction m as [|[k' v'] m IH]; simpl; [reflexivity|].
  destruct (eqb k' k); [discriminate|auto].
Qed.

Lemma set_absent (k : K) (v : V) (m : JSMap.t K V) :
  JSMap.get eqb k m = None -> JSMap.set eqb k v m = m ++ [(k, v)].
Proof.
  induction m as [|[k' v'] m IH]; simpl; [reflexivity|].
  destruct (eqb k' k); [discriminate|].
  intros H. now rewrite IH.
Qed.

Lemma keys_set_present (k : K) (v : V) (m : JSMap.t K V) :
  JSMap.get eqb k m <> None -> JSMap.keys (JSMap.set eqb k v m) = JSMap.keys m.
Proof.
  induction m as [|[k' v'] m IH]; simpl; [congruence|].
  destruct (eqb k' k); simpl; [reflexivity|].
  intros H. f_equal. now apply IH.
Qed.

Lemma get_set_same (k : K) (v : V) (m : JSMap.t K V) :
  JSMap.get eqb k (JSMap.set eqb k v m) = Some v.
Proof.
  induction m as [|[k' v'] m IH]; simpl.
  - now rewrite eqb_refl_true.
  - destruct (eqb k' k) eqn:E; simpl; rewrite E; auto.
Qed.

Lemma get_set_other (k k' : K) (v : V) (m : JSMap.t K V) :
  k <> k' -> JSMap.get eqb k' (JSMap.set eqb k v m) = JSMap.get eqb k' m.
Proof.
  intros Hne. induction m as [|[k0 v0] m IH]; simpl.
  - now rewrite eqb_neq_false.
  - destruct (eqb k0 k) eqn:E; simpl.
    + apply eqb_eq in E. subst. now rewrite eqb_neq_false.
    + destruct (eqb k0 k'); auto.
Qed.

Lemma NoDup_keys_set (k : K) (v : V) (m : JSMap.t K V) :
  NoDup (JSMap.keys m) -> NoDup (JSMap.keys (JSMap.set eqb k v m)).
Proof.
  intros Hnd. destruct (JSMap.get eqb k m) eqn:G.
  - rewrite keys_set_present; [assumption | congruence].
  - rewrite set_absent by assumption. unfold JSMap.keys.
    rewrite map_app. simpl. apply NoDup_app; [assumption | |].
    + constructor; [simpl; tauto | constructor].
    + intros a Ha [Hk|[]]. subst a. now apply get_None_keys in G.
Qed.

Lemma In_set (k : K) (v : V) (m : JSMap.t K V) (e : K * V) :
  In e (JSMap.set eqb k v m) -> e = (k, v) \/ In e m.
Proof.
  induction m as [|[k0 v0] m IH]; simpl.
  - intros [H|[]]; auto.
  - destruct (eqb k0 k) eqn:E; simpl.
    + apply eqb_eq in E. subst. intros [H|H]; auto.
    + intros [H|H]; auto. destruct (IH H); auto.
Qed.

Lemma In_delete (k : K) (m : JSMap.t K V) (e : K * V) :
  In e (JSMap.delete eqb k m) -> In e m.
Proof.
  induction m as [|[k0 v0] m IH]; simpl; [tauto|].
  destruct (eqb k0 k); simpl; [auto|]. intros [H|H]; auto.
Qed.

Lemma get_delete_same (k : K) (m : JSMap.t K V) :
  NoDup (JSMap.keys m) -> JSMap.get eqb k (JSMap.delete eqb k m) = None.
Proof.
  induction m as [|[k0 v0] m IH]; simpl; [reflexivity|].
  intros Hnd. inversion Hnd as [|? ? Hni Hnd']; subst.
  destruct (eqb k0 k) eqn:E; simpl.
  - apply eqb_eq in E. subst. now apply get_None_keys.
  - rewrite E. auto.
Qed.

Lemma get_delete_other (k k' : K) (m : JSMap.t K V) :
  k <> k' -> JSMap.get eqb k' (JSMap.delete eqb k m) = JSMap.get eqb k' m.
Proof.
  intros Hne. induction m as [|[k0 v0] m IH]; simpl; [reflexivity|].
  destruct (eqb k0 k) eqn:E; simpl.
  - apply eqb_eq in E. subst. now rewrite eqb_neq_false.
  - destruct (eqb k0 k'); auto.
Qed.

Lemma NoDup_keys_delete (k : K) (m : JSMap.t K V) :
  NoDup (JSMap.keys m) -> NoDup (JSMap.keys (JSMap.delete eqb k m)).
Proof.
  induction m as [|[k0 v0] m IH]; simpl; [auto|].
  intros Hnd. inversion Hnd as [|? ? Hni Hnd']; subst.
  destruct (eqb k0 k); simpl; [assumption|].
  constructor; [|auto].
  intros Hin. apply Hni. unfold JSMap.keys in *.
  apply in_map_iff in Hin. destruct Hin as [e [He Hin]].
  apply in_map_iff. exists e. split; [assumption|].
  eapply In_delete; eauto.
Qed.

End MapFacts.

(* ================================================================= *)
(** * Link keys: printing two ids and reading them back *)

Lemma dashFree_digits (d : uint) :
  dashFree (NilEmpty.string_of_uint d) = true.
Proof. induction d; simpl; auto. Qed.

Lemma dashFree_String_ (n : nat) : dashFree (JS.String_ n) = true.
Proof. apply dashFree_digits. Qed.

Lemma Number_String_ (n : nat) : JS.Number_ (JS.String_ n) = Some n.
Proof.
  unfold JS.Number_, JS.String_. rewrite NilEmpty.usu. simpl.
  now rewrite DecimalNat.Unsigned.of_to.
Qed.

Lemma split_dashFree (s : string) :
  dashFree s = true -> JS.split "-" s = [s].
Proof.
  induction s as [|c s IH]; simpl; [reflexivity|].
  intros H. apply andb_true_iff in H. destruct H as [Hc Hs].
  apply negb_true_iff in Hc. rewrite Hc, (IH Hs). reflexivity.
Qed.

Lemma split_dash (s t : string) :
  dashFree s = true ->
  JS.split "-" (s ++ "-" ++ t) = s :: JS.split "-" t.
Proof.
  induction s as [|c s IH]; simpl; [reflexivity|].
  intros H. apply andb_true_iff in H. destruct H as [Hc Hs].
  apply negb_true_iff in Hc. rewrite Hc.
  simpl in IH. rewrite (IH Hs). reflexivity.
Qed.

Lemma split_linkKey (s t : nat) :
  JS.split "-" (linkKey s t) = [JS.String_ s; JS.String_ t].
Proof.
  unfold linkKey. rewrite split_dash by apply dashFree_String_.
  now rewrite split_dashFree by apply dashFree_String_.
Qed.

Lemma mkLink_linkKey (s t w : nat) : mkLink (linkKey s t, w) = linkOf s t w.
Proof.
  unfold mkLink. rewrite split_linkKey. simpl.
  now rewrite !Number_String_.
Qed.

Lemma linkKey_inj (s t s' t' : nat) :
  linkKey s t = linkKey s' t' -> s = s' /\ t = t'.
Proof.
  intros H. apply (f_equal (fun k => mkLink (k, 0))) in H.
  rewrite !mkLink_linkKey in H. unfold linkOf in H.
  inversion H. auto.
Qed.

Lemma string_eqb_eq (a b : string) : String.eqb a b = true <-> a = b.
Proof. apply String.eqb_eq. Qed.

(* ================================================================= *)
(** * The node registry *)

Lemma wfRegistry_Agg0 : wfRegistry Agg0.
Proof. repeat split; simpl; constructor. Qed.

Lemma extends_refl (a : Agg) : extends a a.
Proof. split; exists []; now rewrite app_nil_r. Qed.

Lemma extends_trans (a b c : Agg) : extends a b -> extends b c -> extends a c.
Proof.
  intros [[e1 H1] [e2 H2]] [[e3 H3] [e4 H4]]. split.
  - exists (e1 ++ e3). now rewrite H3, H1, app_assoc.
  - exists (e2 ++ e4). now rewrite H4, H2, app_assoc.
Qed.

Lemma extends_nodeMap (a b : Agg) (n : string) (i : nat) :
  extends a b -> sget n (nodeMap a) = Some i -> sget n (nodeMap b) = Some i.
Proof. intros [[e H] _] G. rewrite H. now apply get_app_l. Qed.

Lemma extends_nodeId (a b : Agg) (n : string) :
  extends a b -> In n (JSMap.keys (nodeMap a)) -> nodeId b n = nodeId a n.
Proof.
  intros E Hin. unfold nodeId.
  destruct (sget n (nodeMap a)) as [i|] eqn:G.
  - now rewrite (extends_nodeMap a b n i E G).
  - apply (get_None_keys String.eqb string_eqb_eq) in G. contradiction.
Qed.

Lemma layer_None_of_node_None (a : Agg) (n : string) :
  wfRegistry a -> sget n (nodeMap a) = None -> sget n (layerMap a) = None.
Proof.
  intros (_ & _ & _ & Hk) G.
  apply (get_None_keys String.eqb string_eqb_eq).
  rewrite Hk. now apply (get_None_keys String.eqb string_eqb_eq).
Qed.

(** A name already registered: [addNode] changes nothing and returns its
    id. *)
Lemma addNode_known (n : string) (l i : nat) (a : Agg) :
  sget n (nodeMap a) = Some i -> addNode n l a = (i, a).
Proof.
  intros G. unfold addNode, JSMap.has. rewrite G. simpl. now rewrite G.
Qed.

(** A new name: [addNode] appends it to both maps under the next id. *)
Lemma addNode_new (n : string) (l : nat) (a : Agg) :
  wfRegistry a -> sget n (nodeMap a) = None ->
  addNode n l a =
  (nodeIndex a,
   {| nodeMap := nodeMap a ++ [(n, nodeIndex a)];
      linkMap := linkMap a;
      layerMap := layerMap a ++ [(n, l)];
      nodeIndex := S (nodeIndex a) |}).
Proof.
  intros W G. pose proof (layer_None_of_node_None a n W G) as GL.
  unfold addNode, JSMap.has. rewrite G. simpl.
  rewrite (get_set_same String.eqb string_eqb_eq).
  now rewrite (set_absent String.eqb _ _ _ G), (set_absent String.eqb _ _ _ GL).
Qed.

Lemma addNode_fst (n : string) (l : nat) (a : Agg) :
  fst (addNode n l a) = nodeId (snd (addNode n l a)) n.
Proof. reflexivity. Qed.

Lemma addNode_linkMap (n : string) (l : nat) (a : Agg) :
  linkMap (snd (addNode n l a)) = linkMap a.
Proof.
  unfold addNode. simpl. now destruct (negb (JSMap.has String.eqb n (nodeMap a))).
Qed.

Lemma addNode_wf (n : string) (l : nat) (a : Agg) :
  wfRegistry a -> wfRegistry (snd (addNode n l a)).
Proof.
  intros W. destruct (sget n (nodeMap a)) as [i|] eqn:G.
  - now rewrite (addNode_known n l i a G).
  - rewrite (addNode_new n l a W G). simpl.
    destruct W as (Hs & Hi & Hnd & Hk).
    unfold wfRegistry, JSMap.keys in *. simpl.
    rewrite !map_app, length_app, Hs, Hi, Hk. simpl.
    repeat split.
    + rewrite Nat.add_1_r, seq_S. reflexivity.
    + lia.
    + apply NoDup_app; [assumption | |].
      * constructor; [simpl; tauto | constructor].
      * intros x Hx [Hn|[]]. subst x.
        now apply (get_None_keys String.eqb string_eqb_eq) in G.
Qed.

Lemma addNode_extends (n : string) (l : nat) (a : Agg) :
  wfRegistry a -> extends a (snd (addNode n l a)).
Proof.
  intros W. destruct (sget n (nodeMap a)) as [i|] eqn:G.
  - rewrite (addNode_known n l i a G). apply extends_refl.
  - rewrite (addNode_new n l a W G). split; simpl; eauto.
Qed.

Lemma addNode_keys (n : string) (l : nat) (a : Agg) (x : string) :
  wfRegistry a ->
  In x (JSMap.keys (nodeMap (snd (addNode n l a)))) <->
  In x (JSMap.keys (nodeMap a)) \/ x = n.
Proof.
  intros W. destruct (sget n (nodeMap a)) as [i|] eqn:G.
  - rewrite (addNode_known n l i a G). simpl. split; [tauto|].
    intros [H|H]; [assumption|]. subst x.
    apply get_Some_In in G; [|apply string_eqb_eq].
    change n with (fst (n, i)). now apply in_map.
  - rewrite (addNode_new n l a W G). simpl. unfold JSMap.keys.
    rewrite map_app, in_app_iff. simpl. intuition.
Qed.

Lemma addNode_layer (n : string) (l : nat) (a : Agg) (x : string) :
  wfRegistry a ->
  sget x (layerMap (snd (addNode n l a))) =
  match sget x (layerMap a) with
  | Some y => Some y
  | None => if String.eqb n x then Some l else None
  end.
Proof.
  intros W. destruct (sget n (nodeMap a)) as [i|] eqn:G.
  - rewrite (addNode_known n l i a G). simpl.
    destruct (sget x (layerMap a)) eqn:GL; [reflexivity|].
    destruct (String.eqb n x) eqn:E; [|reflexivity].
    apply String.eqb_eq in E. subst x.
    apply (get_None_keys String.eqb string_eqb_eq) in GL.
    destruct W as (_ & _ & _ & Hk). rewrite Hk in GL.
    exfalso. apply GL. apply get_Some_In in G; [|apply string_eqb_eq].
    change n with (fst (n, i)). now apply in_map.
  - rewrite (addNode_new n l a W G). simpl.
    destruct (sget x (layerMap a)) eqn:GL.
    + now apply get_app_l.
    + rewrite (get_app_r String.eqb _ _ _ GL). reflexivity.
Qed.

(** ** Runs of [addNode] *)

Lemma register_app (o1 o2 : list (string * nat)) (a : Agg) :
  register (o1 ++ o2) a = register o2 (register o1 a).
Proof. apply fold_left_app. Qed.

Lemma register_cons (n : string) (l : nat) (occs : list (string * nat))
      (a : Agg) :
  register ((n, l) :: occs) a = register occs (snd (addNode n l a)).
Proof. reflexivity. Qed.

Lemma register_wf (occs : list (string * nat)) (a : Agg) :
  wfRegistry a -> wfRegistry (register occs a).
Proof.
  revert a. induction occs as [|[n l] occs IH]; intros a W; [assumption|].
  rewrite register_cons. apply IH. now apply addNode_wf.
Qed.

Lemma register_extends (occs : list (string * nat)) (a : Agg) :
  wfRegistry a -> extends a (register occs a).
Proof.
  revert a. induction occs as [|[n l] occs IH]; intros a W.
  - apply extends_refl.
  - rewrite register_cons.
    eapply extends_trans; [now apply addNode_extends|].
    apply IH. now apply addNode_wf.
Qed.

Lemma register_linkMap (occs : list (string * nat)) (a : Agg) :
  linkMap (register occs a) = linkMap a.
Proof.
  revert a. induction occs as [|[n l] occs IH]; intros a; [reflexivity|].
  rewrite register_cons, IH. apply addNode_linkMap.
Qed.

Lemma register_keys (occs : list (string * nat)) (a : Agg) (x : string) :
  wfRegistry a ->
  In x (JSMap.keys (nodeMap (register occs a))) <->
  In x (JSMap.keys (nodeMap a)) \/ In x (map fst occs).
Proof.
  revert a. induction occs as [|[n l] occs IH]; intros a W.
  - simpl. tauto.
  - rewrite register_cons, IH by now apply addNode_wf.
    rewrite addNode_keys by assumption. simpl. intuition.
Qed.

(** The layer of a name is the one of its first occurrence. *)
Lemma register_layer (occs : list (string * nat)) (a : Agg) (x : string) :
  wfRegistry a ->
  sget x (layerMap (register occs a)) =
  match sget x (layerMap a) with
  | Some y => Some y
  | None => sget x occs
  end.
Proof.
  revert a. induction occs as [|[n l] occs IH]; intros a W.
  - simpl. now destruct (sget x (layerMap a)).
  - rewrite register_cons, IH by now apply addNode_wf.
    rewrite addNode_layer by assumption. simpl.
    destruct (sget x (layerMap a)); [reflexivity|].
    now destruct (String.eqb n x).
Qed.

Lemma sameRegistry_refl (a : Agg) : sameRegistry a a.
Proof. repeat split. Qed.

Lemma sameRegistry_trans (a b c : Agg) :
  sameRegistry a b -> sameRegistry b c -> sameRegistry a c.
Proof. intros (H1 & H2 & H3) (H4 & H5 & H6). repeat split; congruence. Qed.

Lemma sameRegistry_wf (a b : Agg) :
  sameRegistry a b -> wfRegistry a -> wfRegistry b.
Proof.
  intros (H1 & H2 & H3). unfold wfRegistry. now rewrite H1, H2, H3.
Qed.

Lemma sameRegistry_addNode (n : string) (l : nat) (a b : Agg) :
  sameRegistry a b ->
  sameRegistry (snd (addNode n l a)) (snd (addNode n l b)).
Proof.
  intros (H1 & H2 & H3). unfold addNode. simpl. rewrite H1.
  destruct (negb (JSMap.has String.eqb n (nodeMap b))); simpl.
  - unfold sameRegistry. simpl. now rewrite H2, H3.
  - repeat split; assumption.
Qed.

Lemma sameRegistry_register (occs : list (string * nat)) (a b : Agg) :
  sameRegistry a b -> sameRegistry (register occs a) (register occs b).
Proof.
  revert a b. induction occs as [|[n l] occs IH]; intros a b S; [assumption|].
  rewrite !register_cons. apply IH. now apply sameRegistry_addNode.
Qed.

Lemma sameRegistry_bump (k : string) (a : Agg) : sameRegistry (bump k a) a.
Proof. repeat split. Qed.

Lemma sameRegistry_addEdges (es : list (nat * nat)) (a : Agg) :
  sameRegistry (addEdges es a) a.
Proof.
  revert a. induction es as [|p es IH]; intros a; simpl.
  - apply sameRegistry_refl.
  - eapply sameRegistry_trans; [apply IH | apply sameRegistry_bump].
Qed.

Lemma sameRegistry_sym (a b : Agg) : sameRegistry a b -> sameRegistry b a.
Proof. intros (H1 & H2 & H3). repeat split; congruence. Qed.

Lemma sameRegistry_nodeId (a b : Agg) (n : string) :
  sameRegistry a b -> nodeId a n = nodeId b n.
Proof. intros (H1 & _). unfold nodeId. now rewrite H1. Qed.

Lemma sameRegistry_extends (a b c : Agg) :
  sameRegistry b c -> extends a b -> extends a c.
Proof. intros (H1 & H2 & _). unfold extends. now rewrite H1, H2. Qed.

(** One record: four [addNode] calls, then three increments on the ids
    that the registry holds for its names afterwards. *)
Lemma processConn_eq (a : Agg) (c : Connection) :
  wfRegistry a ->
  processConn a c =
  addEdges (edgesOf (register (occurrences c) a) c)
           (register (occurrences c) a).
Proof.
  intros W. unfold processConn, occurrences, edgesOf.
  destruct (chainsOf c) as [|h tl] eqn:Hc; [reflexivity|].
  cbn [List.length Nat.eqb].
  set (s := sourceLabel c). set (r := ruleLabel c).
  set (cl := chainLastOf c). set (cf := chainFirstOf c).
  rewrite !register_cons. cbn [register fold_left].
  pose proof (addNode_fst s 0 a) as F1.
  pose proof (addNode_wf s 0 a W) as W1.
  pose proof (addNode_keys s 0 a s W) as K1.
  destruct (addNode s 0 a) as [i1 a1]. cbn [fst snd] in *.
  pose proof (addNode_fst r 1 a1) as F2.
  pose proof (addNode_wf r 1 a1 W1) as W2.
  pose proof (addNode_extends r 1 a1 W1) as E2.
  pose proof (addNode_keys r 1 a1 r W1) as K2.
  destruct (addNode r 1 a1) as [i2 a2]. cbn [fst snd] in *.
  pose proof (addNode_fst cl 2 a2) as F3.
  pose proof (addNode_wf cl 2 a2 W2) as W3.
  pose proof (addNode_extends cl 2 a2 W2) as E3.
  pose proof (addNode_keys cl 2 a2 cl W2) as K3.
  destruct (addNode cl 2 a2) as [i3 a3]. cbn [fst snd] in *.
  pose proof (addNode_fst cf 3 a3) as F4.
  pose proof (addNode_extends cf 3 a3 W3) as E4.
  destruct (addNode cf 3 a3) as [i4 a4]. cbn [fst snd] in *.
  assert (H1 : nodeId a4 s = i1).
  { rewrite F1. rewrite (extends_nodeId a1 a4); [reflexivity | | tauto].
    eapply extends_trans; [exact E2|]. eapply extends_trans; eassumption. }
  assert (H2 : nodeId a4 r = i2).
  { rewrite F2. rewrite (extends_nodeId a2 a4); [reflexivity | | tauto].
    eapply extends_trans; eassumption. }
  assert (H3 : nodeId a4 cl = i3).
  { rewrite F3. rewrite (extends_nodeId a3 a4); [reflexivity | assumption | tauto]. }
  rewrite H1, H2, H3, <- F4. reflexivity.
Qed.

Lemma processConn_registry (a : Agg) (c : Connection) :
  wfRegistry a -> sameRegistry (processConn a c) (register (occurrences c) a).
Proof.
  intros W. rewrite processConn_eq by assumption. apply sameRegistry_addEdges.
Qed.

Lemma processConn_wf (a : Agg) (c : Connection) :
  wfRegistry a -> wfRegistry (processConn a c).
Proof.
  intros W. eapply sameRegistry_wf.
  - apply sameRegistry_sym, processConn_registry. assumption.
  - now apply register_wf.
Qed.

Lemma processConn_extends (a : Agg) (c : Connection) :
  wfRegistry a -> extends a (processConn a c).
Proof.
  intros W. eapply sameRegistry_extends.
  - apply sameRegistry_sym, processConn_registry. assumption.
  - now apply register_extends.
Qed.

Lemma fold_processConn_wf (conns : list Connection) (a : Agg) :
  wfRegistry a -> wfRegistry (fold_left processConn conns a).
Proof.
  revert a. induction conns as [|c conns IH]; intros a W; simpl; [assumption|].
  apply IH. now apply processConn_wf.
Qed.

Lemma fold_processConn_extends (conns : list Connection) (a : Agg) :
  wfRegistry a -> extends a (fold_left processConn conns a).
Proof.
  revert a. induction conns as [|c conns IH]; intros a W; simpl.
  - apply extends_refl.
  - eapply extends_trans; [now apply processConn_extends|].
    apply IH. now apply processConn_wf.
Qed.

Lemma fold_processConn_registry (conns : list Connection) (a b : Agg) :
  wfRegistry a -> sameRegistry a b ->
  sameRegistry (fold_left processConn conns a)
               (register (allOccurrences conns) b).
Proof.
  revert a b. induction conns as [|c conns IH]; intros a b W S; simpl.
  - assumption.
  - unfold allOccurrences. simpl. rewrite register_app.
    apply IH; [now apply processConn_wf|].
    eapply sameRegistry_trans; [now apply processConn_registry|].
    now apply sameRegistry_register.
Qed.

Lemma aggregate_wf (conns : list Connection) : wfRegistry (aggregate conns).
Proof. apply fold_processConn_wf, wfRegistry_Agg0. Qed.

(** The registry of the whole pass is the one built by the [addNode] calls
    of all records, in order. *)
Lemma aggregate_registry (conns : list Connection) :
  sameRegistry (aggregate conns) (register (allOccurrences conns) Agg0).
Proof.
  apply fold_processConn_registry;
    [apply wfRegistry_Agg0 | apply sameRegistry_refl].
Qed.

Lemma NoDup_same_length (l1 l2 : list string) :
  NoDup l1 -> NoDup l2 -> (forall x, In x l1 <-> In x l2) ->
  List.length l1 = List.length l2.
Proof.
  intros N1 N2 H. apply Nat.le_antisymm; apply NoDup_incl_length;
    try assumption; intros x Hx; now apply H.
Qed.

(** The id of a name is the number of distinct names met before its first
    occurrence. *)
Lemma register_first_id (pre post : list (string * nat)) (n : string)
      (l : nat) :
  ~ In n (map fst pre) ->
  sget n (nodeMap (register (pre ++ (n, l) :: post) Agg0)) =
  Some (List.length (nodup string_dec (map fst pre))).
Proof.
  intros Hni. rewrite register_app, register_cons.
  pose proof (register_wf pre Agg0 wfRegistry_Agg0) as W1.
  pose proof (fun x => register_keys pre Agg0 x wfRegistry_Agg0) as HK.
  set (a1 := register pre Agg0) in *.
  assert (G : sget n (nodeMap a1) = None).
  { apply (get_None_keys String.eqb string_eqb_eq). intros Hin.
    apply HK in Hin. destruct Hin as [[]|Hin]. contradiction. }
  assert (Hlen : nodeIndex a1 = List.length (nodup string_dec (map fst pre))).
  { destruct W1 as (_ & Hi & Hnd & _). rewrite Hi.
    transitivity (List.length (JSMap.keys (nodeMap a1))).
    - unfold JSMap.keys. now rewrite length_map.
    - apply NoDup_same_length; [assumption | apply NoDup_nodup |].
      intros x. rewrite nodup_In, HK. simpl. tauto. }
  eapply extends_nodeMap.
  - apply register_extends. now apply addNode_wf.
  - rewrite (addNode_new n l a1 W1 G). simpl.
    rewrite (get_app_r String.eqb _ _ _ G). simpl.
    now rewrite String.eqb_refl, Hlen.
Qed.

Lemma get_first_occurrence (pre post : list (string * nat)) (n : string)
      (l : nat) :
  ~ In n (map fst pre) -> sget n (pre ++ (n, l) :: post) = Some l.
Proof.
  intros Hni. rewrite (get_app_r String.eqb).
  - simpl. now rewrite String.eqb_refl.
  - now apply (get_None_keys String.eqb string_eqb_eq).
Qed.

(** In a well-formed registry the entry of id [i] sits at position [i]. *)
Lemma wfRegistry_position (a : Agg) (n : string) (i : nat) :
  wfRegistry a -> sget n (nodeMap a) = Some i ->
  nth_error (nodeMap a) i = Some (n, i).
Proof.
  intros (Hs & _) G.
  apply get_Some_In in G; [|apply string_eqb_eq].
  apply In_nth_error in G. destruct G as [j Hj].
  assert (Hi : nth_error (map snd (nodeMap a)) j = Some i).
  { now rewrite nth_error_map, Hj. }
  rewrite Hs in Hi.
  assert (Hlt : j < List.length (nodeMap a)).
  { apply nth_error_Some. congruence. }
  rewrite nth_error_seq in Hi.
  destruct (Nat.ltb_spec j (List.length (nodeMap a))); [|lia].
  simpl in Hi. inversion Hi. subst. assumption.
Qed.

(* ================================================================= *)
(** * The graph that [sankeyData] returns *)

Lemma or_number_Some (l : nat) : JS.or_number (Some l) 0 = l.
Proof. now destruct l. Qed.

Lemma sankeyData_Some (conns : list Connection) :
  sankeyData (Some conns) =
  {| nodes := map (mkNode (aggregate conns)) (nodeMap (aggregate conns));
     links := map mkLink (linkMap (aggregate conns)) |}.
Proof. destruct conns; reflexivity. Qed.

Lemma names_of_nodes (a : Agg) (nm : JSMap.t string nat) :
  map name (map (mkNode a) nm) = JSMap.keys nm.
Proof.
  unfold JSMap.keys. rewrite map_map. apply map_ext. now intros [n i].
Qed.

Lemma ids_of_nodes (a : Agg) (nm : JSMap.t string nat) :
  map id (map (mkNode a) nm) = map snd nm.
Proof. rewrite map_map. apply map_ext. now intros [n i]. Qed.

Lemma aggregate_keys (conns : list Connection) (x : string) :
  In x (JSMap.keys (nodeMap (aggregate conns))) <->
  In x (map fst (allOccurrences conns)).
Proof.
  destruct (aggregate_registry conns) as (H & _). rewrite H.
  rewrite register_keys by apply wfRegistry_Agg0. simpl. tauto.
Qed.

Lemma aggregate_layer (conns : list Connection) (x : string) :
  sget x (layerMap (aggregate conns)) = sget x (allOccurrences conns).
Proof.
  destruct (aggregate_registry conns) as (_ & H & _). rewrite H.
  now rewrite register_layer by apply wfRegistry_Agg0.
Qed.

(** C5: node identity is first-seen-wins.  For every input, the nodes of
    the graph carry pairwise distinct names, exactly the names handed to
    [addNode]; their ids are 0, 1, 2, ... in list order; the node of a name
    sits at the position, and has the id, given by the number of distinct
    names met before its first occurrence, and its colour is the one of the
    layer of that first occurrence, whatever layers later occurrences ask
    for; calling [addNode] on a registered name returns its id and leaves
    the registry as it is.  In the example, DIRECT is first a rule label and
    later a chain element: it stays node 1 with the colour of layer 1. *)
Theorem C5_first_seen_registry :
  (forall conns : list Connection,
     let g := sankeyData (Some conns) in
     let a := aggregate conns in
     NoDup (map name (nodes g)) /\
     (forall n, In n (map name (nodes g)) <->
                In n (map fst (allOccurrences conns))) /\
     map id (nodes g) = seq 0 (List.length (nodes g)) /\
     (forall pre post n l,
        allOccurrences conns = pre ++ (n, l) :: post ->
        ~ In n (map fst pre) ->
        let i := List.length (nodup string_dec (map fst pre)) in
        nth_error (nodes g) i =
          Some {| id := i; name := n; color := nth_error layerColors l |} /\
        JSMap.get String.eqb n (nodeMap a) = Some i /\
        JSMap.get String.eqb n (layerMap a) = Some l) /\
     (forall n l i,
        JSMap.get String.eqb n (nodeMap a) = Some i ->
        addNode n l a = (i, a))) /\
  sankeyData (Some [connection "10.0.0.1" "DIRECT" ["HK"];
                    connection "10.0.0.2" "Match" ["DIRECT"]]) =
  {| nodes :=
       [{| id := 0; name := "10.0.0.1"; color := Some "#5470c6" |};
        {| id := 1; name := "DIRECT"; color := Some "#91cc75" |};
        {| id := 2; name := "HK"; color := Some "#fac858" |};
        {| id := 3; name := "10.0.0.2"; color := Some "#5470c6" |};
        {| id := 4; name := "Match"; color := Some "#91cc75" |}];
     links :=
       [linkOf 0 1 1; linkOf 1 2 1; linkOf 2 2 1;
        linkOf 3 4 1; linkOf 4 1 1; linkOf 1 1 1] |}.
Proof.
  split; [|reflexivity].
  intros conns g a. subst g. rewrite sankeyData_Some. fold a.
  cbn [nodes]. pose proof (aggregate_wf conns) as W. fold a in W.
  rewrite names_of_nodes, ids_of_nodes, length_map.
  destruct W as (Hs & Hi & Hnd & Hk).
  split; [assumption|]. split; [apply aggregate_keys|].
  split; [assumption|]. split.
  - intros pre post n l Hocc Hni.
    set (i := List.length (nodup string_dec (map fst pre))).
    assert (Gn : sget n (nodeMap a) = Some i).
    { destruct (aggregate_registry conns) as (H & _). unfold a.
      rewrite H, Hocc. now apply register_first_id. }
    assert (Gl : sget n (layerMap a) = Some l).
    { unfold a. rewrite aggregate_layer, Hocc.
      now apply get_first_occurrence. }
    split; [|split; assumption].
    rewrite nth_error_map.
    rewrite (wfRegistry_position a n i); [|repeat split; assumption|assumption].
    simpl. rewrite Gl, or_number_Some. reflexivity.
  - intros n l i G. now apply addNode_known.
Qed.

Lemma processConn_skip (a : Agg) (c : Connection) :
  chainsOf c = [] -> processConn a c = a.
Proof. intros H. unfold processConn. now rewrite H. Qed.

Lemma fold_processConn_filter (conns : list Connection) (a : Agg) :
  fold_left processConn (filter hasChain conns) a =
  fold_left processConn conns a.
Proof.
  revert a. induction conns as [|c conns IH]; intros a; simpl; [reflexivity|].
  unfold hasChain at 1. destruct (chainsOf c) eqn:Hc; simpl.
  - now rewrite IH, (processConn_skip a c Hc).
  - apply IH.
Qed.

(** C6: the empty-state graph.  A missing or empty connection list, and a
    list in which every record has an empty (or missing) chain, give the
    graph with no node and no link; a record with an empty chain leaves the
    three maps as they are, so the graph of any list is the graph of its
    records that have a chain. *)
Theorem C6_empty_graph :
  sankeyData None = emptyGraph /\
  sankeyData (Some []) = emptyGraph /\
  sankeyData (Some [{| sourceIP := Some "10.0.0.1"; rule := "Match";
                       rulePayload := None; chains := Some [] |}])
    = emptyGraph /\
  (forall conns,
     (forall c, In c conns -> chainsOf c = []) ->
     sankeyData (Some conns) = emptyGraph) /\
  (forall a c, chainsOf c = [] -> processConn a c = a) /\
  (forall conns,
     sankeyData (Some conns) = sankeyData (Some (filter hasChain conns))).
Proof.
  split; [reflexivity|]. split; [reflexivity|]. split; [reflexivity|].
  assert (F : forall conns,
             sankeyData (Some conns) =
             sankeyData (Some (filter hasChain conns))).
  { intros conns. rewrite !sankeyData_Some. unfold aggregate.
    now rewrite fold_processConn_filter. }
  split; [|split; [apply processConn_skip | exact F]].
  intros conns H. rewrite F.
  replace (filter hasChain conns) with (@nil Connection); [reflexivity|].
  symmetry. induction conns as [|c conns IH]; [reflexivity|]. simpl.
  unfold hasChain at 1. rewrite (H c) by now left. simpl.
  apply IH. intros c' Hc'. apply H. now right.
Qed.

(* ================================================================= *)
(** * [getNodeTypeName] *)

Lemma layerIn_unfold (c : Connection) (x : string) :
  chainsOf c <> [] ->
  layerIn c x =
  if String.eqb x (sourceLabel c) then Some 0
  else if String.eqb x (ruleLabel c) then Some 1
  else if String.eqb x (chainLastOf c) then Some 2
  else if String.eqb x (chainFirstOf c) then Some 3
  else None.
Proof.
  intros H. unfold layerIn, occurrences.
  destruct (chainsOf c); [congruence|]. simpl.
  rewrite (String.eqb_sym (sourceLabel c)), (String.eqb_sym (ruleLabel c)),
    (String.eqb_sym (chainLastOf c)), (String.eqb_sym (chainFirstOf c)).
  reflexivity.
Qed.

Lemma layerIn_skip (c : Connection) (x : string) :
  chainsOf c = [] -> layerIn c x = None.
Proof. intros H. unfold layerIn, occurrences. now rewrite H. Qed.

Lemma scanNodeType_cons (x : string) (c : Connection)
      (rest : list Connection) :
  scanNodeType x (c :: rest) =
  match layerIn c x with
  | Some l => keyOfLayer (Some l)
  | None => scanNodeType x rest
  end.
Proof.
  destruct (chainsOf c) as [|h tl] eqn:Hc.
  - rewrite (layerIn_skip c x Hc). simpl. now rewrite Hc.
  - rewrite layerIn_unfold by congruence. simpl. rewrite Hc. simpl.
    destruct (String.eqb x (sourceLabel c)); [reflexivity|].
    destruct (String.eqb x (ruleLabel c)); [reflexivity|].
    destruct (String.eqb x (chainLastOf c)); [reflexivity|].
    destruct (String.eqb x (chainFirstOf c)); reflexivity.
Qed.

Lemma getNodeTypeName_Some (conns : list Connection) (x : string) :
  getNodeTypeName (Some conns) x = scanNodeType x conns.
Proof. destruct conns; reflexivity. Qed.

Lemma processConn_layer (a : Agg) (c : Connection) (x : string) :
  wfRegistry a ->
  sget x (layerMap (processConn a c)) =
  match sget x (layerMap a) with
  | Some y => Some y
  | None => layerIn c x
  end.
Proof.
  intros W. destruct (processConn_registry a c W) as (_ & H & _).
  rewrite H. now apply register_layer.
Qed.

(** The lookup and the aggregation agree, from any registry on. *)
Lemma scan_agrees_with_layer (x : string) (conns : list Connection)
      (a : Agg) :
  wfRegistry a ->
  (forall l, sget x (layerMap a) = Some l -> l <= 3) ->
  keyOfLayer (sget x (layerMap (fold_left processConn conns a))) =
  match sget x (layerMap a) with
  | Some l => keyOfLayer (Some l)
  | None => scanNodeType x conns
  end.
Proof.
  revert a. induction conns as [|c conns IH]; intros a W B.
  - simpl. now destruct (sget x (layerMap a)).
  - cbn [fold_left]. rewrite IH.
    + rewrite processConn_layer by assumption.
      destruct (sget x (layerMap a)); [reflexivity|].
      now rewrite scanNodeType_cons.
    + now apply processConn_wf.
    + intros l. rewrite processConn_layer by assumption.
      destruct (sget x (layerMap a)) eqn:G.
      * intros H. inversion H. subst. now apply B.
      * destruct (chainsOf c) eqn:Hc.
        -- now rewrite (layerIn_skip c x Hc).
        -- rewrite layerIn_unfold by congruence.
           repeat match goal with
                  | |- context [if ?b then _ else _] => destruct b
                  end; intros H; inversion H; lia.
Qed.

Lemma scan_first_match (x : string) (pre post : list Connection)
      (c : Connection) (l : nat) :
  (forall c', In c' pre -> layerIn c' x = None) ->
  layerIn c x = Some l ->
  scanNodeType x (pre ++ c :: post) = keyOfLayer (Some l).
Proof.
  intros Hpre Hc. induction pre as [|p pre IH].
  - rewrite app_nil_l, scanNodeType_cons, Hc. reflexivity.
  - rewrite <- app_comm_cons, scanNodeType_cons, (Hpre p) by now left.
    apply IH. intros c' H. apply Hpre. now right.
Qed.

Lemma scan_no_match (x : string) (conns : list Connection) :
  (forall c, In c conns -> layerIn c x = None) ->
  scanNodeType x conns = unknown.
Proof.
  intros H. induction conns as [|c conns IH]; [reflexivity|].
  rewrite scanNodeType_cons, (H c) by now left.
  apply IH. intros c' Hc'. apply H. now right.
Qed.

(** C1, as the code has it: the lookup scans the connections in input
    order and the first record with a chain that names the node decides,
    testing source address, rule label, last chain element and first chain
    element in this order; the answer is the message key of the layer under
    which the aggregation registered the name.  The last element of the
    chain is reported as [proxyChainEntry] and the first one as
    [proxyChainExit].  The key is [unknown] when no record with a chain
    names the node, or when there is no connection list. *)
Theorem C1_role_lookup (conns : list Connection) (x : string) :
  (forall pre c post l,
     conns = pre ++ c :: post ->
     (forall c', In c' pre -> layerIn c' x = None) ->
     layerIn c x = Some l ->
     getNodeTypeName (Some conns) x = keyOfLayer (Some l)) /\
  (forall c,
     chainsOf c <> [] ->
     layerIn c x =
     if String.eqb x (sourceLabel c) then Some 0
     else if String.eqb x (ruleLabel c) then Some 1
     else if String.eqb x (chainLastOf c) then Some 2
     else if String.eqb x (chainFirstOf c) then Some 3
     else None) /\
  (forall c, chainsOf c = [] -> layerIn c x = None) /\
  (keyOfLayer (Some 0) = sourceIPAddress /\
   keyOfLayer (Some 1) = ruleMatch /\
   keyOfLayer (Some 2) = proxyChainEntry /\
   keyOfLayer (Some 3) = proxyChainExit) /\
  getNodeTypeName (Some conns) x =
    keyOfLayer (JSMap.get String.eqb x (layerMap (aggregate conns))) /\
  ((forall c, In c conns -> layerIn c x = None) ->
   getNodeTypeName (Some conns) x = unknown) /\
  getNodeTypeName None x = unknown.
Proof.
  split.
  { intros pre c post l -> Hpre Hc. rewrite getNodeTypeName_Some.
    now apply scan_first_match. }
  split; [intros c; apply layerIn_unfold|].
  split; [intros c; apply layerIn_skip|].
  split; [repeat split|].
  split.
  { rewrite getNodeTypeName_Some. unfold aggregate.
    rewrite scan_agrees_with_layer.
    - reflexivity.
    - apply wfRegistry_Agg0.
    - discriminate. }
  split; [|reflexivity].
  intros H. rewrite getNodeTypeName_Some. now apply scan_no_match.
Qed.

(** C1 as stated fails: in a chain of two hops the last one is reported as
    the entry of the proxy chain, not its exit, and the first one as the
    exit, not the entry. *)
Lemma C1_counterexample :
  let conn := connection "10.0.0.1" "Match" ["HK"; "Proxy"] in
  chainLastOf conn = "Proxy" /\
  chainFirstOf conn = "HK" /\
  getNodeTypeName (Some [conn]) (chainLastOf conn) <> proxyChainExit /\
  getNodeTypeName (Some [conn]) (chainFirstOf conn) <> proxyChainEntry.
Proof. repeat split; discriminate. Qed.

(* ================================================================= *)
(** * Link weights *)

Lemma bump_weight (q p : nat * nat) (a : Agg) :
  weightIn (bump (linkKey (fst q) (snd q)) a) p =
  weightIn a p + (if pair_eq_dec q p then 1 else 0).
Proof.
  unfold weightIn, bump. cbn [linkMap].
  destruct (pair_eq_dec q p) as [->|Hne].
  - rewrite (get_set_same String.eqb string_eqb_eq), or_number_Some.
    reflexivity.
  - rewrite (get_set_other String.eqb string_eqb_eq); [lia|].
    intros H. apply linkKey_inj in H. destruct H as [H1 H2].
    apply Hne. destruct q, p. simpl in *. congruence.
Qed.

Lemma addEdges_weight (es : list (nat * nat)) (p : nat * nat) (a : Agg) :
  weightIn (addEdges es a) p = weightIn a p + occ p es.
Proof.
  revert a. induction es as [|q es IH]; intros a.
  - simpl. unfold occ. simpl. lia.
  - change (addEdges (q :: es) a)
      with (addEdges es (bump (linkKey (fst q) (snd q)) a)).
    rewrite IH, bump_weight. unfold occ. simpl.
    destruct (pair_eq_dec q p); lia.
Qed.

Lemma bump_wfLinks (q : nat * nat) (a : Agg) :
  wfLinks a -> wfLinks (bump (linkKey (fst q) (snd q)) a).
Proof.
  intros [Hnd Hall]. split; cbn [bump linkMap].
  - now apply (NoDup_keys_set String.eqb string_eqb_eq).
  - apply Forall_forall. intros e He.
    apply (In_set String.eqb string_eqb_eq) in He. destruct He as [->|He].
    + simpl. split; [eauto | lia].
    + rewrite Forall_forall in Hall. now apply Hall.
Qed.

Lemma addEdges_wfLinks (es : list (nat * nat)) (a : Agg) :
  wfLinks a -> wfLinks (addEdges es a).
Proof.
  revert a. induction es as [|q es IH]; intros a W; [assumption|].
  apply IH. now apply bump_wfLinks.
Qed.

Lemma register_wfLinks (occs : list (string * nat)) (a : Agg) :
  wfLinks a -> wfLinks (register occs a).
Proof. unfold wfLinks. now rewrite register_linkMap. Qed.

Lemma fold_processConn_wfLinks (conns : list Connection) (a : Agg) :
  wfRegistry a -> wfLinks a -> wfLinks (fold_left processConn conns a).
Proof.
  revert a. induction conns as [|c conns IH]; intros a W L; [assumption|].
  cbn [fold_left]. apply IH; [now apply processConn_wf|].
  rewrite processConn_eq by assumption.
  now apply addEdges_wfLinks, register_wfLinks.
Qed.

Lemma aggregate_wfLinks (conns : list Connection) :
  wfLinks (aggregate conns).
Proof.
  apply fold_processConn_wfLinks; [apply wfRegistry_Agg0|].
  split; simpl; constructor.
Qed.

Lemma edgesOf_idPair (a : Agg) (c : Connection) :
  edgesOf a c = map (idPair a) (namedEdges c).
Proof. unfold edgesOf, namedEdges. now destruct (chainsOf c). Qed.

Lemma namedEdges_names (c : Connection) (e : string * string) :
  In e (namedEdges c) ->
  In (fst e) (map fst (occurrences c)) /\ In (snd e) (map fst (occurrences c)).
Proof.
  unfold namedEdges, occurrences. destruct (chainsOf c); [intros []|].
  simpl. intros [<-|[<-|[<-|[]]]]; simpl; tauto.
Qed.

Lemma edgesOf_stable (a b : Agg) (c : Connection) :
  (forall x, In x (map fst (occurrences c)) -> nodeId a x = nodeId b x) ->
  edgesOf a c = edgesOf b c.
Proof.
  intros H. rewrite !edgesOf_idPair. apply map_ext_in.
  intros e He. apply namedEdges_names in He. destruct He as [H1 H2].
  unfold idPair. now rewrite (H _ H1), (H _ H2).
Qed.

Lemma processConn_names (a : Agg) (c : Connection) (x : string) :
  wfRegistry a -> In x (map fst (occurrences c)) ->
  In x (JSMap.keys (nodeMap (processConn a c))).
Proof.
  intros W H. destruct (processConn_registry a c W) as (Hn & _).
  rewrite Hn. apply register_keys; [assumption | now right].
Qed.

(** One record adds one to the weight of each of its three edges. *)
Lemma processConn_weight (a : Agg) (c : Connection) (p : nat * nat) :
  wfRegistry a ->
  weightIn (processConn a c) p =
  weightIn a p + occ p (edgesOf (processConn a c) c).
Proof.
  intros W. rewrite (edgesOf_stable (processConn a c)
                                    (register (occurrences c) a)).
  - rewrite processConn_eq at 1 by assumption.
    rewrite addEdges_weight. unfold weightIn.
    now rewrite register_linkMap.
  - intros x _. apply sameRegistry_nodeId. now apply processConn_registry.
Qed.

Lemma fold_processConn_weight (conns : list Connection) (a : Agg)
      (p : nat * nat) :
  wfRegistry a ->
  weightIn (fold_left processConn conns a) p =
  weightIn a p +
  occ p (flat_map (edgesOf (fold_left processConn conns a)) conns).
Proof.
  revert a. induction conns as [|c conns IH]; intros a W.
  - simpl. unfold occ. simpl. lia.
  - cbn [fold_left flat_map].
    pose proof (processConn_wf a c W) as W1.
    rewrite (IH _ W1). unfold occ. rewrite count_occ_app. fold (occ p).
    rewrite (processConn_weight a c p W).
    rewrite (edgesOf_stable (fold_left processConn conns (processConn a c))
                            (processConn a c) c); [unfold occ; lia|].
    intros x Hx. apply extends_nodeId.
    + now apply fold_processConn_extends.
    + now apply processConn_names.
Qed.

(** The weight held for a pair is the number of edges on that pair. *)
Lemma aggregate_weight (conns : list Connection) (p : nat * nat) :
  weightIn (aggregate conns) p = occ p (edgeOccurrences conns).
Proof.
  unfold aggregate, edgeOccurrences.
  rewrite fold_processConn_weight by apply wfRegistry_Agg0.
  reflexivity.
Qed.

Lemma link_in_graph (a : Agg) (s t w : nat) :
  wfLinks a ->
  (In (linkOf s t w) (map mkLink (linkMap a)) <->
   1 <= w /\ w = weightIn a (s, t)).
Proof.
  intros [Hnd Hall]. rewrite Forall_forall in Hall. split.
  - intros H. apply in_map_iff in H. destruct H as [[k v] [Hk Hin]].
    destruct (Hall _ Hin) as [[s' [t' Hkey]] Hpos]. simpl in Hkey, Hpos.
    subst k. rewrite mkLink_linkKey in Hk. inversion Hk. subst.
    split; [assumption|]. unfold weightIn. simpl.
    rewrite (In_get_Some String.eqb string_eqb_eq _ _ _ Hnd Hin).
    now rewrite or_number_Some.
  - intros [Hpos Hw]. unfold weightIn in Hw. simpl in Hw.
    destruct (sget (linkKey s t) (linkMap a)) as [v|] eqn:G.
    + rewrite or_number_Some in Hw. subst v.
      apply get_Some_In in G; [|apply string_eqb_eq].
      apply in_map_iff. exists (linkKey s t, w).
      split; [apply mkLink_linkKey | assumption].
    + simpl in Hw. lia.
Qed.

Lemma NoDup_map_of_keys {A B C : Type} (f : A -> B) (g : A -> C)
      (l : list A) :
  (forall x y, In x l -> In y l -> g x = g y -> f x = f y) ->
  NoDup (map f l) -> NoDup (map g l).
Proof.
  induction l as [|x l IH]; intros Hinj Hnd; simpl; [constructor|].
  inversion Hnd as [|? ? Hni Hnd']; subst. constructor.
  - intros Hin. apply in_map_iff in Hin. destruct Hin as [y [Hy Hin]].
    apply Hni. rewrite <- (Hinj y x); [now apply in_map | now right
                                       | now left | assumption].
  - apply IH; [|assumption]. intros a b Ha Hb. apply Hinj; now right.
Qed.

Lemma links_NoDup (a : Agg) :
  wfLinks a -> NoDup (map ends (map mkLink (linkMap a))).
Proof.
  intros [Hnd Hall]. rewrite Forall_forall in Hall. rewrite map_map.
  apply (NoDup_map_of_keys fst); [|exact Hnd].
  intros [k v] [k' v'] Hx Hy.
  destruct (Hall _ Hx) as [[s [t Hk]] _].
  destruct (Hall _ Hy) as [[s' [t' Hk']] _]. simpl in Hk, Hk'. subst k k'.
  rewrite !mkLink_linkKey. unfold ends, linkOf. simpl. congruence.
Qed.

Lemma links_shape (a : Agg) (l : Link) :
  wfLinks a -> In l (map mkLink (linkMap a)) ->
  exists s t, l = linkOf s t (value l) /\ 1 <= value l.
Proof.
  intros [_ Hall] H. rewrite Forall_forall in Hall.
  apply in_map_iff in H. destruct H as [[k v] [Hk Hin]].
  destruct (Hall _ Hin) as [[s [t Hkey]] Hpos]. simpl in Hkey, Hpos. subst k.
  rewrite mkLink_linkKey in Hk. subst l. exists s, t. now split.
Qed.

Lemma aggregate_snoc (conns : list Connection) (c : Connection) :
  aggregate (conns ++ [c]) = processConn (aggregate conns) c.
Proof. unfold aggregate. now rewrite fold_left_app. Qed.

(* ================================================================= *)
(** * Edges by the names of their ends *)

Lemma nodeId_inj (a : Agg) (x y : string) :
  wfRegistry a ->
  In x (JSMap.keys (nodeMap a)) -> In y (JSMap.keys (nodeMap a)) ->
  nodeId a x = nodeId a y -> x = y.
Proof.
  intros W Hx Hy. unfold nodeId.
  destruct (sget x (nodeMap a)) as [i|] eqn:Gx.
  - destruct (sget y (nodeMap a)) as [j|] eqn:Gy.
    + intros ->.
      pose proof (wfRegistry_position a x j W Gx) as Px.
      pose proof (wfRegistry_position a y j W Gy) as Py.
      congruence.
    + apply (get_None_keys String.eqb string_eqb_eq) in Gy. contradiction.
  - apply (get_None_keys String.eqb string_eqb_eq) in Gx. contradiction.
Qed.

Lemma count_occ_map_inj {A B : Type} (dA : forall x y : A, {x = y} + {x <> y})
      (dB : forall x y : B, {x = y} + {x <> y}) (f : A -> B) (l : list A)
      (e0 : A) :
  (forall e, In e l -> f e = f e0 -> e = e0) ->
  count_occ dB (map f l) (f e0) = count_occ dA l e0.
Proof.
  induction l as [|e l IH]; intros Hinj; simpl; [reflexivity|].
  rewrite IH by (intros e' He'; apply Hinj; now right).
  destruct (dB (f e) (f e0)) as [Hf|Hf]; destruct (dA e e0) as [He|He];
    try reflexivity.
  - exfalso. apply He, Hinj; [now left | assumption].
  - exfalso. apply Hf. now rewrite He.
Qed.

Lemma map_flat_map_edges (a : Agg) (conns : list Connection) :
  flat_map (edgesOf a) conns = map (idPair a) (flat_map namedEdges conns).
Proof.
  induction conns as [|c conns IH]; simpl; [reflexivity|].
  now rewrite map_app, IH, edgesOf_idPair.
Qed.

Lemma namedEdges_registered (conns : list Connection)
      (e : string * string) :
  In e (flat_map namedEdges conns) ->
  In (fst e) (JSMap.keys (nodeMap (aggregate conns))) /\
  In (snd e) (JSMap.keys (nodeMap (aggregate conns))).
Proof.
  intros H. apply in_flat_map in H. destruct H as [c [Hc He]].
  apply namedEdges_names in He. rewrite !aggregate_keys.
  unfold allOccurrences. rewrite flat_map_concat_map, concat_map, map_map.
  split; apply in_concat; exists (map fst (occurrences c));
    (split; [|tauto]); apply in_map_iff; exists c; auto.
Qed.

(** The edges on the ids of two registered names are the named edges that
    join these names. *)
Lemma named_pair_weight (conns : list Connection) (x y : string) :
  In x (JSMap.keys (nodeMap (aggregate conns))) ->
  In y (JSMap.keys (nodeMap (aggregate conns))) ->
  occ (idPair (aggregate conns) (x, y)) (edgeOccurrences conns) =
  count_occ namePair_eq_dec (flat_map namedEdges conns) (x, y).
Proof.
  intros Hx Hy. unfold occ, edgeOccurrences. rewrite map_flat_map_edges.
  apply count_occ_map_inj. intros [x' y'] He Hf.
  apply namedEdges_registered in He. destruct He as [Hx' Hy'].
  unfold idPair in Hf. cbn [fst snd] in Hf, Hx', Hy'.
  assert (H1 := f_equal fst Hf). assert (H2 := f_equal snd Hf).
  cbn [fst snd] in H1, H2.
  pose proof (aggregate_wf conns) as W.
  f_equal.
  - exact (nodeId_inj (aggregate conns) x' x W Hx' Hx H1).
  - exact (nodeId_inj (aggregate conns) y' y W Hy' Hy H2).
Qed.

Lemma self_loop_weight (conns : list Connection) (h : string) :
  In h (JSMap.keys (nodeMap (aggregate conns))) ->
  occ (idPair (aggregate conns) (h, h)) (edgeOccurrences conns) =
  count_occ namePair_eq_dec (flat_map namedEdges conns) (h, h).
Proof. intros Hh. now apply named_pair_weight. Qed.

(** C4: edge weights accumulate per ordered pair of node ids.  Every link
    of the graph has two ids as ends and a weight of at least 1; no two
    links have the same ordered pair of ends; the link on a pair has for
    weight the number of edges on that pair among the three edges of each
    processed record; processing one more record adds to each pair the
    number of that record's three edges that lie on it, so pairs it does
    not touch keep their weight; by names, the link from the node of [x] to
    the node of [y] has for weight the number of edges from [x] to [y] in
    the input.  In the example two records share the
    pair source 0, rule 1, which gets weight 2, and a third record on other
    pairs leaves it at 2. *)
Theorem C4_edge_weights :
  (forall conns : list Connection,
     let g := sankeyData (Some conns) in
     (forall l, In l (links g) ->
                exists s t, l = linkOf s t (value l) /\ 1 <= value l) /\
     NoDup (map ends (links g)) /\
     (forall s t w,
        In (linkOf s t w) (links g) <->
        1 <= w /\ w = occ (s, t) (edgeOccurrences conns)) /\
     (forall c p,
        weightIn (aggregate (conns ++ [c])) p =
        weightIn (aggregate conns) p +
        occ p (edgesOf (aggregate (conns ++ [c])) c)) /\
     (forall p, weightIn (aggregate conns) p = occ p (edgeOccurrences conns)) /\
     (forall a c, chainsOf c <> [] -> List.length (edgesOf a c) = 3) /\
     (forall x y w,
        In x (map name (nodes g)) -> In y (map name (nodes g)) ->
        (In (linkOf (nodeId (aggregate conns) x) (nodeId (aggregate conns) y) w)
            (links g) <->
         1 <= w /\
         w = count_occ namePair_eq_dec (flat_map namedEdges conns) (x, y)))) /\
  links (sankeyData (Some [connection "10.0.0.1" "Match" ["HK"];
                           connection "10.0.0.1" "Match" ["JP"]])) =
    [linkOf 0 1 2; linkOf 1 2 1; linkOf 2 2 1; linkOf 1 3 1; linkOf 3 3 1] /\
  links (sankeyData (Some [connection "10.0.0.1" "Match" ["HK"];
                           connection "10.0.0.1" "Match" ["JP"];
                           connection "10.0.0.2" "Final" ["US"]])) =
    [linkOf 0 1 2; linkOf 1 2 1; linkOf 2 2 1; linkOf 1 3 1; linkOf 3 3 1;
     linkOf 4 5 1; linkOf 5 6 1; linkOf 6 6 1].
Proof.
  split; [|split; reflexivity].
  intros conns g. subst g. rewrite sankeyData_Some. cbn [links nodes].
  pose proof (aggregate_wfLinks conns) as WL.
  split; [intros l; now apply links_shape|].
  split; [now apply links_NoDup|].
  split.
  { intros s t w. rewrite (link_in_graph _ s t w WL).
    now rewrite aggregate_weight. }
  split.
  { intros c p. rewrite aggregate_snoc.
    apply processConn_weight, aggregate_wf. }
  split; [apply aggregate_weight|].
  split.
  { intros a c H. unfold edgesOf.
    destruct (chainsOf c); [congruence|reflexivity]. }
  intros x y w. rewrite names_of_nodes. intros Hx Hy.
  rewrite (link_in_graph _ _ _ w WL), aggregate_weight.
  change (nodeId (aggregate conns) x, nodeId (aggregate conns) y)
    with (idPair (aggregate conns) (x, y)).
  now rewrite named_pair_weight.
Qed.

Lemma single_hop_chain (c : Connection) (h : string) :
  isSingleHop h c = true <-> chainsOf c = [h].
Proof.
  unfold isSingleHop. destruct (chainsOf c) as [|x [|y tl]].
  - split; discriminate.
  - rewrite String.eqb_eq. split; congruence.
  - split; discriminate.
Qed.

Lemma single_hop_edges (c : Connection) (h : string) :
  chainsOf c = [h] ->
  namedEdges c =
  [(sourceLabel c, ruleLabel c); (ruleLabel c, h); (h, h)].
Proof.
  intros H. unfold namedEdges, chainLastOf, chainFirstOf. now rewrite H.
Qed.

Lemma single_hop_own_loop (c : Connection) (h : string) :
  chainsOf c = [h] ->
  1 <= count_occ namePair_eq_dec (namedEdges c) (h, h).
Proof.
  intros E. rewrite (single_hop_edges c h E).
  rewrite <- (app_nil_r [(sourceLabel c, ruleLabel c); (ruleLabel c, h); (h, h)]).
  change ([(sourceLabel c, ruleLabel c); (ruleLabel c, h); (h, h)] ++ [])
    with ([(sourceLabel c, ruleLabel c); (ruleLabel c, h)] ++ (h, h) :: []).
  rewrite count_occ_elt_eq by reflexivity. lia.
Qed.

Lemma single_hop_count_le (conns : list Connection) (h : string) :
  List.length (filter (isSingleHop h) conns) <=
  count_occ namePair_eq_dec (flat_map namedEdges conns) (h, h).
Proof.
  induction conns as [|c conns IH]; [simpl; lia|].
  cbn [filter flat_map]. rewrite count_occ_app.
  destruct (isSingleHop h c) eqn:E.
  - apply single_hop_chain in E.
    pose proof (single_hop_own_loop c h E) as H1.
    cbn [List.length].
    change (S (List.length (filter (isSingleHop h) conns)))
      with (1 + List.length (filter (isSingleHop h) conns)).
    now apply Nat.add_le_mono.
  - eapply Nat.le_trans; [exact IH | apply Nat.le_add_l].
Qed.

Lemma namedEdges_cases (c : Connection) :
  namedEdges c = [] \/
  namedEdges c = [(sourceLabel c, ruleLabel c);
                  (ruleLabel c, chainLastOf c);
                  (chainLastOf c, chainFirstOf c)].
Proof. unfold namedEdges. destruct (chainsOf c); auto. Qed.

Lemma single_hop_count_eq (conns : list Connection) (h : string) :
  (forall c, In c conns ->
     ruleLabel c <> h /\
     (chainLastOf c = h -> chainFirstOf c = h -> chainsOf c = [h])) ->
  count_occ namePair_eq_dec (flat_map namedEdges conns) (h, h) =
  List.length (filter (isSingleHop h) conns).
Proof.
  induction conns as [|c conns IH]; intros H; simpl; [reflexivity|].
  rewrite count_occ_app, IH by (intros c' Hc'; apply H; now right).
  destruct (H c (or_introl eq_refl)) as [Hr Hc].
  assert (K : count_occ namePair_eq_dec (namedEdges c) (h, h) =
              if isSingleHop h c then 1 else 0).
  { destruct (isSingleHop h c) eqn:E.
    - apply single_hop_chain in E. rewrite (single_hop_edges c h E).
      cbn [count_occ].
      destruct (namePair_eq_dec (sourceLabel c, ruleLabel c) (h, h));
        [congruence|].
      destruct (namePair_eq_dec (ruleLabel c, h) (h, h)); [congruence|].
      destruct (namePair_eq_dec (h, h) (h, h)); congruence.
    - destruct (namedEdges_cases c) as [->| ->]; [reflexivity|].
      cbn [count_occ].
      destruct (namePair_eq_dec (sourceLabel c, ruleLabel c) (h, h));
        [congruence|].
      destruct (namePair_eq_dec (ruleLabel c, chainLastOf c) (h, h));
        [congruence|].
      destruct (namePair_eq_dec (chainLastOf c, chainFirstOf c) (h, h))
        as [e|]; [|reflexivity].
      inversion e as [[e1 e2]]. rewrite e1 in e2.
      pose proof (Hc e1 e2) as Hsingle.
      apply single_hop_chain in Hsingle. congruence. }
  rewrite K. destruct (isSingleHop h c); simpl; lia.
Qed.

(** C10, as the code has it: a record whose chain is the single hop [h]
    has the same name for chain exit and chain entry, so its third edge
    joins the node of [h] to itself, and the graph has a link from that
    node to itself.  The weight of that link is the number of edges, over
    all processed records, that join the name [h] to itself: at least the
    number of records whose chain is the single hop [h], and exactly that
    number when no rule label is [h] and no longer chain both ends and
    starts with [h]. *)
Theorem C10_single_hop_self_loop (conns : list Connection) (c : Connection)
        (h : string) :
  In c conns -> chainsOf c = [h] ->
  let a := aggregate conns in
  let i := nodeId a h in
  chainLastOf c = h /\ chainFirstOf c = h /\
  nth_error (edgesOf a c) 2 = Some (i, i) /\
  exists w,
    In (linkOf i i w) (links (sankeyData (Some conns))) /\
    w = occ (i, i) (edgeOccurrences conns) /\
    w = count_occ namePair_eq_dec (flat_map namedEdges conns) (h, h) /\
    List.length (filter (isSingleHop h) conns) <= w /\
    ((forall c', In c' conns ->
        ruleLabel c' <> h /\
        (chainLastOf c' = h -> chainFirstOf c' = h -> chainsOf c' = [h])) ->
     w = List.length (filter (isSingleHop h) conns)).
Proof.
  intros Hin Hc a i.
  assert (Hl : chainLastOf c = h) by (unfold chainLastOf; now rewrite Hc).
  assert (Hf : chainFirstOf c = h) by (unfold chainFirstOf; now rewrite Hc).
  split; [assumption|]. split; [assumption|]. split.
  { unfold edgesOf. rewrite Hc, Hl, Hf. reflexivity. }
  assert (Hreg : In h (JSMap.keys (nodeMap a))).
  { apply (namedEdges_registered conns (h, h)).
    apply in_flat_map. exists c. split; [assumption|].
    rewrite (single_hop_edges c h Hc). simpl. tauto. }
  pose proof (self_loop_weight conns h Hreg) as Hw.
  change (idPair (aggregate conns) (h, h)) with (i, i) in Hw.
  exists (occ (i, i) (edgeOccurrences conns)).
  split.
  { rewrite sankeyData_Some. cbn [links].
    apply link_in_graph; [apply aggregate_wfLinks|].
    split; [|now rewrite aggregate_weight].
    rewrite Hw.
    pose proof (single_hop_count_le conns h) as Hle.
    assert (1 <= List.length (filter (isSingleHop h) conns)); [|lia].
    assert (Hc' : In c (filter (isSingleHop h) conns)).
    { apply filter_In. split; [assumption|]. now apply single_hop_chain. }
    destruct (filter (isSingleHop h) conns); [destruct Hc' | simpl; lia]. }
  split; [reflexivity|]. split; [assumption|]. split.
  - rewrite Hw. apply single_hop_count_le.
  - intros H. rewrite Hw. now apply single_hop_count_eq.
Qed.

Lemma C10_single_hop_self_loop_witness :
  let conns := [connection "10.0.0.1" "Match" ["DIRECT"];
                connection "10.0.0.2" "Match" ["DIRECT"]] in
  exists w,
    In (linkOf 2 2 w) (links (sankeyData (Some conns))) /\ w = 2.
Proof.
  intros conns.
  destruct (C10_single_hop_self_loop conns
              (connection "10.0.0.1" "Match" ["DIRECT"]) "DIRECT"
              (or_introl eq_refl) eq_refl)
    as (_ & _ & _ & w & Hin & _ & Hw & _).
  exists w. split; [exact Hin | exact Hw].
Defined.

(** C10 as stated fails: one record whose rule label and single hop are
    both DIRECT gives the self-loop on DIRECT weight 2, its second and
    third edges, though only one record has that single-hop chain. *)
Lemma C10_counterexample :
  let conns := [connection "10.0.0.1" "DIRECT" ["DIRECT"]] in
  let i := nodeId (aggregate conns) "DIRECT" in
  In (linkOf i i 2) (links (sankeyData (Some conns))) /\
  List.length (filter (isSingleHop "DIRECT") conns) = 1 /\
  ~ In (linkOf i i (List.length (filter (isSingleHop "DIRECT") conns)))
       (links (sankeyData (Some conns))).
Proof.
  simpl. repeat split.
  - vm_compute. tauto.
  - vm_compute. intros [H|[H|[]]]; discriminate.
Qed.

(* ================================================================= *)
(** * Menu cycling *)

Lemma MenuKey_eqb_eq (a b : MenuKey) : MenuKey_eqb a b = true <-> a = b.
Proof. destruct a, b; simpl; split; congruence. Qed.

Lemma findIndex_NoDup (items : list MenuKey) (i : nat) (k : MenuKey) :
  NoDup items -> nth_error items i = Some k ->
  JS.findIndex MenuKey_eqb k items = Z.of_nat i.
Proof.
  revert i. induction items as [|x items IH]; intros i Hnd Hi.
  - destruct i; discriminate.
  - inversion Hnd as [|? ? Hni Hnd']; subst. destruct i as [|i].
    + simpl in Hi. inversion Hi. subst. simpl.
      now rewrite (proj2 (MenuKey_eqb_eq k k) eq_refl).
    + simpl in Hi. cbn [JS.findIndex].
      destruct (MenuKey_eqb x k) eqn:E.
      * apply MenuKey_eqb_eq in E. subst.
        exfalso. apply Hni. eapply nth_error_In; eauto.
      * rewrite (IH i Hnd' Hi).
        destruct (Z.ltb_spec (Z.of_nat i) 0); lia.
Qed.

Lemma indexZ_of_nat {A : Type} (arr : list A) (j : nat) :
  JS.indexZ arr (Z.of_nat j) = nth_error arr j.
Proof.
  unfold JS.indexZ. destruct (Z.ltb_spec (Z.of_nat j) 0); [lia|].
  now rewrite Nat2Z.id.
Qed.

Lemma rem_of_nat (a n : nat) :
  0 < n -> Z.rem (Z.of_nat a) (Z.of_nat n) = Z.of_nat (a mod n).
Proof.
  intros H. rewrite Z.rem_mod_nonneg by lia. now rewrite Nat2Z.inj_mod.
Qed.

Lemma nth_error_hd {A : Type} (l : list A) (d : A) :
  l <> [] -> nth_error l 0 = Some (hd d l).
Proof. destruct l; [congruence | reflexivity]. Qed.

Lemma nth_error_last {A : Type} (l : list A) (d : A) :
  l <> [] -> nth_error l (List.length l - 1) = Some (last l d).
Proof.
  intros H. destruct (exists_last H) as [l' [x ->]].
  rewrite last_last, length_app. simpl.
  rewrite nth_error_app2 by lia.
  replace (List.length l' + 1 - 1 - List.length l') with 0 by lia.
  reflexivity.
Qed.

(** C9: swipe navigation cycles through the ordered keys modulo their
    number, in both directions.  When the active key is the key at position
    [i] of a duplicate-free menu of [n] keys, "next" activates the key at
    position [(i + 1) mod n] and "previous" the key at position
    [(i + n - 1) mod n]; so "next" from the last key activates the first
    key and "previous" from the first key activates the last one. *)
Theorem C9_menu_cycling (st : State) (i : nat) (k : MenuKey) :
  NoDup (menuItems st) ->
  nth_error (menuItems st) i = Some k ->
  activeMenuKey st = k ->
  let n := List.length (menuItems st) in
  (exists k', nth_error (menuItems st) ((i + 1) mod n) = Some k' /\
              getNextMenuKey st = Some (handleMenuClick k' st)) /\
  (exists k', nth_error (menuItems st) ((i + n - 1) mod n) = Some k' /\
              getPrevMenuKey st = Some (handleMenuClick k' st)) /\
  (i = n - 1 ->
   getNextMenuKey st = Some (handleMenuClick (hd k (menuItems st)) st)) /\
  (i = 0 ->
   getPrevMenuKey st = Some (handleMenuClick (last (menuItems st) k) st)).
Proof.
  intros Hnd Hi Hact n.
  assert (Hlt : i < n) by (apply nth_error_Some; congruence).
  assert (Hne : menuItems st <> []).
  { intros E. unfold n in Hlt. rewrite E in Hlt. simpl in Hlt. lia. }
  assert (Hcur : getCurrentMenuIndex st = Z.of_nat i).
  { unfold getCurrentMenuIndex. rewrite Hact. now apply findIndex_NoDup. }
  assert (Hnext : getNextMenuKey st =
                  match nth_error (menuItems st) ((i + 1) mod n) with
                  | Some key => Some (handleMenuClick key st)
                  | None => None
                  end).
  { unfold getNextMenuKey. rewrite Hcur.
    destruct (Z.eqb_spec (Z.of_nat i) (-1)); [lia|].
    replace (Z.of_nat i + 1)%Z with (Z.of_nat (i + 1)) by lia.
    fold n. rewrite rem_of_nat by lia. now rewrite indexZ_of_nat. }
  assert (Hprev : getPrevMenuKey st =
                  match nth_error (menuItems st) ((i + n - 1) mod n) with
                  | Some key => Some (handleMenuClick key st)
                  | None => None
                  end).
  { unfold getPrevMenuKey. rewrite Hcur.
    destruct (Z.eqb_spec (Z.of_nat i) (-1)); [lia|].
    fold n.
    replace (Z.of_nat i - 1 + Z.of_nat n)%Z with (Z.of_nat (i + n - 1)) by lia.
    rewrite rem_of_nat by lia. now rewrite indexZ_of_nat. }
  assert (B1 : (i + 1) mod n < n) by (apply Nat.mod_upper_bound; lia).
  assert (B2 : (i + n - 1) mod n < n) by (apply Nat.mod_upper_bound; lia).
  split; [|split; [|split]].
  - destruct (nth_error (menuItems st) ((i + 1) mod n)) as [k'|] eqn:E.
    + exists k'. auto.
    + apply nth_error_None in E. fold n in E. lia.
  - destruct (nth_error (menuItems st) ((i + n - 1) mod n)) as [k'|] eqn:E.
    + exists k'. auto.
    + apply nth_error_None in E. fold n in E. lia.
  - intros ->. rewrite Hnext.
    replace (n - 1 + 1) with n by lia. rewrite Nat.Div0.mod_same.
    now rewrite (nth_error_hd (menuItems st) k Hne).
  - intros ->. rewrite Hprev.
    replace (0 + n - 1) with (n - 1) by lia.
    rewrite Nat.mod_small by lia. unfold n.
    now rewrite (nth_error_last (menuItems st) k Hne).
Qed.

(** The two menus that the page can show wrap around as well. *)
Example real_menus_wrap :
  getNextMenuKey (withActive overview (initial true true true))
  = Some (withActive general (initial true true true)) /\
  getPrevMenuKey (initial false true true)
  = Some (withActive connections (initial false true true)).
Proof. split; reflexivity. Qed.

Lemma NoDup_four_keys : NoDup [general; backend; proxies; connections].
Proof.
  repeat constructor; simpl; intuition discriminate.
Qed.

Lemma C9_menu_cycling_witness :
  getNextMenuKey (pageWith [general; backend; proxies; connections] connections)
  = Some (pageWith [general; backend; proxies; connections] general) /\
  getPrevMenuKey (pageWith [general; backend; proxies; connections] general)
  = Some (pageWith [general; backend; proxies; connections] connections).
Proof.
  split.
  - exact (proj1 (proj2 (proj2
      (C9_menu_cycling
         (pageWith [general; backend; proxies; connections] connections)
         3 connections NoDup_four_keys eq_refl eq_refl))) eq_refl).
  - exact (proj2 (proj2 (proj2
      (C9_menu_cycling
         (pageWith [general; backend; proxies; connections] general)
         0 general NoDup_four_keys eq_refl eq_refl))) eq_refl).
Defined.

(* ================================================================= *)
(** * The most visible region *)

Lemma Qgtb_true (x y : Q) : Qgtb x y = true <-> (y < x)%Q.
Proof.
  unfold Qgtb. rewrite negb_true_iff. split.
  - intros H. apply Qnot_le_lt. intros L.
    apply Qle_bool_iff in L. congruence.
  - intros H. destruct (Qle_bool x y) eqn:E; [|reflexivity].
    apply Qle_bool_iff in E. now apply Qlt_not_le in H.
Qed.

Lemma Qgtb_false (x y : Q) : Qgtb x y = false <-> (x <= y)%Q.
Proof.
  unfold Qgtb. rewrite negb_false_iff. apply Qle_bool_iff.
Qed.

Lemma Qgeb_true (x y : Q) : Qgeb x y = true <-> (y <= x)%Q.
Proof. apply Qle_bool_iff. Qed.

Lemma threshold_pos : (0 < threshold)%Q.
Proof. reflexivity. Qed.

(** Entries that do not exceed the running maximum leave it alone. *)
Lemma scan_below (l : list (MenuKey * Q)) (mx : Q) (key : option MenuKey) :
  (forall e, In e l -> (snd e <= mx)%Q) ->
  fold_left scanStep l (mx, key) = (mx, key).
Proof.
  induction l as [|[k r] l IH]; intros H; [reflexivity|].
  cbn [fold_left scanStep].
  rewrite (proj2 (Qgtb_false r mx) (H (k, r) (or_introl eq_refl))).
  apply IH. intros e He. apply H. now right.
Qed.

(** Entries strictly below [r] keep the running maximum strictly below
    [r]. *)
Lemma scan_under (l : list (MenuKey * Q)) (mx r : Q) (key : option MenuKey) :
  (mx < r)%Q -> (forall e, In e l -> (snd e < r)%Q) ->
  exists mx' key', fold_left scanStep l (mx, key) = (mx', key') /\
                   (mx' < r)%Q.
Proof.
  revert mx key. induction l as [|[k q] l IH]; intros mx key Hmx H.
  - exists mx, key. now split.
  - cbn [fold_left scanStep]. destruct (Qgtb q mx).
    + apply IH; [apply (H (k, q)); now left|].
      intros e He. apply H. now right.
    + apply IH; [assumption|]. intros e He. apply H. now right.
Qed.

(** The entry that wins: strictly above all earlier ones, not below any
    later one. *)
Lemma scan_found (pre post : list (MenuKey * Q)) (k : MenuKey) (r mx : Q)
      (key : option MenuKey) :
  (mx < r)%Q ->
  (forall e, In e pre -> (snd e < r)%Q) ->
  (forall e, In e post -> (snd e <= r)%Q) ->
  fold_left scanStep (pre ++ (k, r) :: post) (mx, key) = (r, Some k).
Proof.
  intros Hmx Hpre Hpost. rewrite fold_left_app.
  destruct (scan_under pre mx r key Hmx Hpre) as (mx' & key' & -> & Hlt).
  cbn [fold_left scanStep].
  rewrite (proj2 (Qgtb_true r mx') Hlt). now apply scan_below.
Qed.

(** What a scan can end with. *)
Lemma scan_cases (l : list (MenuKey * Q)) (mx : Q) (key : option MenuKey) :
  (fold_left scanStep l (mx, key) = (mx, key) /\
   forall e, In e l -> (snd e <= mx)%Q) \/
  (exists pre k r post,
     l = pre ++ (k, r) :: post /\ (mx < r)%Q /\
     (forall e, In e pre -> (snd e < r)%Q) /\
     (forall e, In e post -> (snd e <= r)%Q) /\
     fold_left scanStep l (mx, key) = (r, Some k)).
Proof.
  revert mx key. induction l as [|[k q] l IH]; intros mx key.
  - left. split; [reflexivity | intros e []].
  - cbn [fold_left scanStep]. destruct (Qgtb q mx) eqn:E.
    + apply Qgtb_true in E. right.
      destruct (IH q (Some k)) as [[Hf Hall] | (pre & k' & r & post & -> & Hq & Hpre & Hpost & Hf)].
      * exists [], k, q, l. repeat split; try assumption. intros e [].
      * exists ((k, q) :: pre), k', r, post. repeat split; try assumption.
        -- now apply Qlt_trans with q.
        -- intros e [<-|He]; [assumption | now apply Hpre].
    + apply Qgtb_false in E.
      destruct (IH mx key) as [[Hf Hall] | (pre & k' & r & post & -> & Hq & Hpre & Hpost & Hf)].
      * left. split; [assumption|]. intros e [<-|He]; [assumption | now apply Hall].
      * right. exists ((k, q) :: pre), k', r, post. repeat split; try assumption.
        intros e [<-|He]; [now apply Qle_lt_trans with mx | now apply Hpre].
Qed.

Lemma select_Some_iff (m : JSMap.t MenuKey Q) (k : MenuKey) :
  selectMostVisible m = Some k <->
  exists pre r post,
    m = pre ++ (k, r) :: post /\ (threshold <= r)%Q /\
    (forall e, In e pre -> (snd e < r)%Q) /\
    (forall e, In e post -> (snd e <= r)%Q).
Proof.
  unfold selectMostVisible, scan, JSMap.entries. split.
  - destruct (scan_cases m 0%Q None)
      as [[Hf _] | (pre & k' & r & post & Hm & _ & Hpre & Hpost & Hf)];
      rewrite Hf; [discriminate|].
    destruct (Qgeb r threshold) eqn:E; [|discriminate].
    intros H. inversion H. subst k'. apply Qgeb_true in E.
    exists pre, r, post. auto.
  - intros (pre & r & post & -> & Hthr & Hpre & Hpost).
    rewrite scan_found; try assumption.
    + now rewrite (proj2 (Qgeb_true r threshold) Hthr).
    + exact (Qlt_le_trans _ _ _ threshold_pos Hthr).
Qed.

Lemma select_None_iff (m : JSMap.t MenuKey Q) :
  selectMostVisible m = None <->
  forall e, In e m -> (snd e < threshold)%Q.
Proof.
  split.
  - unfold selectMostVisible, scan, JSMap.entries.
    destruct (scan_cases m 0%Q None)
      as [[Hf Hall] | (pre & k' & r & post & Hm & _ & Hpre & Hpost & Hf)];
      rewrite Hf.
    + intros _ e He. apply Qle_lt_trans with 0%Q;
        [now apply Hall | exact threshold_pos].
    + destruct (Qgeb r threshold) eqn:E; [discriminate|]. intros _.
      assert (Hr : (r < threshold)%Q).
      { apply Qnot_le_lt. intros L. apply Qgeb_true in L. congruence. }
      intros e He. subst m. apply in_app_or in He.
      destruct He as [He|[<-|He]].
      * apply Qlt_trans with r; [now apply Hpre | assumption].
      * assumption.
      * apply Qle_lt_trans with r; [now apply Hpost | assumption].
  - intros H. destruct (selectMostVisible m) as [k|] eqn:E; [|reflexivity].
    apply select_Some_iff in E.
    destruct E as (pre & r & post & -> & Hthr & _).
    assert (Hr : (r < threshold)%Q).
    { apply (H (k, r)). apply in_or_app. right. now left. }
    exfalso. exact (Qlt_not_le _ _ Hr Hthr).
Qed.

(** C3: the most-visible decision.  The scan selects [k] exactly when the
    map has an entry for [k] whose ratio reaches the threshold, is strictly
    above the ratio of every entry visited before it and not below the
    ratio of any entry visited after it: the greatest ratio, the first one
    seen among equals.  Nothing is selected exactly when every ratio is
    below the threshold, as in the empty map.  With general for A and
    backend for B: A at 0.25 and B at 0.35 select B, A at 0.25 alone
    selects nothing, A then B both at 0.5 select A.  The function
    activates the selected key, if any, on a middle screen with a scroll
    container. *)
Theorem C3_most_visible :
  (forall (m : JSMap.t MenuKey Q) (k : MenuKey),
     selectMostVisible m = Some k <->
     exists pre r post,
       m = pre ++ (k, r) :: post /\ (threshold <= r)%Q /\
       (forall e, In e pre -> (snd e < r)%Q) /\
       (forall e, In e post -> (snd e <= r)%Q)) /\
  (forall m : JSMap.t MenuKey Q,
     selectMostVisible m = None <->
     forall e, In e m -> (snd e < threshold)%Q) /\
  selectMostVisible JSMap.empty = None /\
  selectMostVisible
    (JSMap.set MenuKey_eqb backend ratio_0_35
       (JSMap.set MenuKey_eqb general ratio_0_25 JSMap.empty))
    = Some backend /\
  selectMostVisible (JSMap.set MenuKey_eqb general ratio_0_25 JSMap.empty)
    = None /\
  selectMostVisible
    (JSMap.set MenuKey_eqb backend ratio_0_5
       (JSMap.set MenuKey_eqb general ratio_0_5 JSMap.empty))
    = Some general /\
  (forall st : State,
     isMiddleScreen st = true -> scrollContainerRef st = true ->
     updateActiveMenuByVisibility st =
     match selectMostVisible (visibilityRatios st) with
     | Some k => withActive k st
     | None => st
     end).
Proof.
  split; [exact select_Some_iff|]. split; [exact select_None_iff|].
  split; [reflexivity|]. split; [reflexivity|]. split; [reflexivity|].
  split; [reflexivity|].
  intros st Hm Hs. unfold updateActiveMenuByVisibility. rewrite Hm, Hs.
  simpl. destruct (selectMostVisible (visibilityRatios st)) as [k|];
    [|reflexivity].
  destruct (MenuKey_eqb k (activeMenuKey st)) eqn:E; [|reflexivity].
  apply MenuKey_eqb_eq in E. simpl. destruct st. simpl in *. now subst.
Qed.

(* ================================================================= *)
(** * Observation events and the debounce timer *)

Lemma updateActive_fields (st : State) :
  let st' := updateActiveMenuByVisibility st in
  menuItems st' = menuItems st /\
  isMiddleScreen st' = isMiddleScreen st /\
  scrollContainerRef st' = scrollContainerRef st /\
  visibilityRatios st' = visibilityRatios st /\
  updateTimer st' = updateTimer st /\ now st' = now st /\
  timers st' = timers st /\ nextTimerId st' = nextTimerId st /\
  recomputations st' = recomputations st.
Proof.
  unfold updateActiveMenuByVisibility. split_ifs; simpl; repeat split.
Qed.

Lemma timerCallback_fields (st : State) :
  let st' := timerCallback st in
  visibilityRatios st' = visibilityRatios st /\
  updateTimer st' = None /\ now st' = now st /\
  timers st' = timers st /\ nextTimerId st' = nextTimerId st /\
  recomputations st' = recomputations st ++ [visibilityRatios st].
Proof.
  unfold timerCallback.
  destruct (updateActive_fields (recordRun st))
    as (_ & _ & _ & Hv & _ & Hn & Ht & Hi & Hr).
  simpl. rewrite Hv, Hn, Ht, Hi, Hr. repeat split.
Qed.

Lemma timerCallback_active (st : State) :
  activeMenuKey (timerCallback st) =
  activeMenuKey (updateActiveMenuByVisibility st).
Proof.
  unfold timerCallback, updateActiveMenuByVisibility. simpl.
  split_ifs; reflexivity.
Qed.

(** Under the invariant, a call of [debouncedUpdateActiveMenu] leaves
    exactly one timeout pending: the new one. *)
Lemma debounced_spec (st : State) :
  timerInv st ->
  debouncedUpdateActiveMenu st =
  withUpdateTimer (Some (nextTimerId st))
    (withTimers [(nextTimerId st, now st + quiet)] (S (nextTimerId st)) st).
Proof.
  intros [Hn [[Ht Hu] | (tid & due & Ht & Hu & H1 & _)]];
    destruct st; simpl in *; subst; unfold debouncedUpdateActiveMenu; simpl.
  - reflexivity.
  - destruct tid as [|tid]; [lia|]. simpl.
    unfold clearTimeout, setTimeout. simpl.
    now rewrite Nat.eqb_refl.
Qed.

Lemma onIntersection_spec (k : MenuKey) (r : Q) (st : State) :
  timerInv st ->
  onIntersection k r st =
  withUpdateTimer (Some (nextTimerId st))
    (withTimers [(nextTimerId st, now st + quiet)] (S (nextTimerId st))
       (withRatios (observe k r (visibilityRatios st)) st)).
Proof.
  intros H. unfold onIntersection, observe.
  destruct (Qgtb r 0); now rewrite debounced_spec.
Qed.

Lemma onIntersection_ratios (k : MenuKey) (r : Q) (st : State) :
  visibilityRatios (onIntersection k r st) =
  observe k r (visibilityRatios st).
Proof.
  unfold onIntersection, observe, debouncedUpdateActiveMenu, setTimeout.
  destruct (Qgtb r 0); simpl; split_ifs; reflexivity.
Qed.

Lemma elapse_idle (ms : nat) (st : State) :
  timers st = [] -> elapse ms st = withNow (now st + ms) st.
Proof.
  intros H. destruct st; simpl in *; subst. reflexivity.
Qed.

Lemma elapse_early (ms tid due : nat) (st : State) :
  timers st = [(tid, due)] -> now st + ms < due ->
  elapse ms st = withNow (now st + ms) st.
Proof.
  intros H Hlt. destruct st as [mi md sc ak vr ut nw tm ni rc].
  simpl in *; subst. unfold elapse. simpl.
  destruct (Nat.leb_spec due (nw + ms)); [lia|]. reflexivity.
Qed.

Lemma elapse_fire (ms tid due : nat) (st : State) :
  timers st = [(tid, due)] -> due <= now st + ms ->
  elapse ms st =
  timerCallback (withNow (now st + ms) (withTimers [] (nextTimerId st) st)).
Proof.
  intros H Hle. destruct st as [mi md sc ak vr ut nw tm ni rc].
  simpl in *; subst. unfold elapse. simpl.
  destruct (Nat.leb_spec due (nw + ms)); [|lia]. reflexivity.
Qed.

Lemma timerInv_initial (split middle container : bool) :
  timerInv (initial split middle container).
Proof. split; [simpl; lia | left; split; reflexivity]. Qed.

Lemma timerInv_onIntersection (k : MenuKey) (r : Q) (st : State) :
  timerInv st -> timerInv (onIntersection k r st).
Proof.
  intros H. rewrite onIntersection_spec by assumption.
  destruct H as [Hn _]. split; simpl; [lia|].
  right. exists (nextTimerId st), (now st + quiet).
  unfold quiet. repeat split; lia.
Qed.

Lemma timerInv_setup (st : State) :
  timerInv st -> timerInv (setupIntersectionObservers st).
Proof. intros H. exact H. Qed.

Lemma timerInv_elapse (ms : nat) (st : State) :
  timerInv st -> timerInv (elapse ms st).
Proof.
  intros [Hn [[Ht Hu] | (tid & due & Ht & Hu & H1 & H2 & H3 & H4)]].
  - rewrite elapse_idle by assumption. split; [exact Hn|]. now left.
  - destruct (Nat.le_gt_cases due (now st + ms)) as [Hle|Hgt].
    + rewrite (elapse_fire ms tid due st Ht Hle).
      destruct (timerCallback_fields
                  (withNow (now st + ms) (withTimers [] (nextTimerId st) st)))
        as (_ & Hu' & _ & Ht' & Hi' & _).
      split; [rewrite Hi'; exact Hn|]. left. now split.
    + rewrite (elapse_early ms tid due st Ht Hgt).
      split; [exact Hn|]. right. exists tid, due. simpl.
      repeat split; try assumption; lia.
Qed.

Lemma timerInv_step (st : State) (e : Event) :
  timerInv st -> timerInv (step st e).
Proof.
  destruct e; simpl.
  - apply timerInv_onIntersection.
  - apply timerInv_setup.
  - apply timerInv_elapse.
Qed.

Lemma run_app (e1 e2 : list Event) (st : State) :
  run (e1 ++ e2) st = run e2 (run e1 st).
Proof. apply fold_left_app. Qed.

Lemma timerInv_run (events : list Event) (st : State) :
  timerInv st -> timerInv (run events st).
Proof.
  revert st. induction events as [|e events IH]; intros st H; [assumption|].
  apply IH. now apply timerInv_step.
Qed.

Lemma timerInv_single (st : State) :
  timerInv st -> List.length (timers st) <= 1.
Proof.
  intros [_ [[-> _] | (tid & due & -> & _)]]; simpl; lia.
Qed.

Lemma callbacks_ratios (due : list (nat * nat)) (st : State) :
  visibilityRatios (fold_left (fun s _ => timerCallback s) due st) =
  visibilityRatios st.
Proof.
  revert st. induction due as [|t due IH]; intros st; [reflexivity|].
  cbn [fold_left]. rewrite IH.
  now destruct (timerCallback_fields st) as (-> & _).
Qed.

Lemma elapse_ratios (ms : nat) (st : State) :
  visibilityRatios (elapse ms st) = visibilityRatios st.
Proof. unfold elapse. now rewrite callbacks_ratios. Qed.

Lemma ratiosPositive_empty : ratiosPositive JSMap.empty.
Proof. split; [constructor | intros e []]. Qed.

Lemma observe_positive (k : MenuKey) (r : Q) (m : JSMap.t MenuKey Q) :
  ratiosPositive m -> (0 <= r)%Q /\ (r <= 1)%Q ->
  ratiosPositive (observe k r m).
Proof.
  intros [Hnd Hall] [H0 H1]. unfold observe.
  destruct (Qgtb r 0) eqn:E.
  - apply Qgtb_true in E. split.
    + now apply (NoDup_keys_set MenuKey_eqb MenuKey_eqb_eq).
    + intros e He. apply (In_set MenuKey_eqb MenuKey_eqb_eq) in He.
      destruct He as [->|He]; [now split | now apply Hall].
  - split.
    + now apply (NoDup_keys_delete MenuKey_eqb).
    + intros e He. apply In_delete in He. now apply Hall.
Qed.

Lemma run_positive (events : list Event) (st : State) :
  ratiosPositive (visibilityRatios st) -> ratiosInRange events ->
  ratiosPositive (visibilityRatios (run events st)).
Proof.
  revert st. induction events as [|e events IH]; intros st Hp Hr;
    [assumption|].
  cbn [run fold_left]. apply IH.
  - destruct e as [k r| |ms]; cbn [step].
    + rewrite onIntersection_ratios. apply observe_positive; [assumption|].
      apply (Hr k r). now left.
    + apply ratiosPositive_empty.
    + now rewrite elapse_ratios.
  - intros k r H. apply (Hr k r). now right.
Qed.

Lemma observe_set (k : MenuKey) (r : Q) (m : JSMap.t MenuKey Q) :
  (0 < r)%Q -> JSMap.get MenuKey_eqb k (observe k r m) = Some r.
Proof.
  intros H. unfold observe. rewrite (proj2 (Qgtb_true r 0) H).
  apply (get_set_same MenuKey_eqb MenuKey_eqb_eq).
Qed.

Lemma observe_remove (k : MenuKey) (r : Q) (m : JSMap.t MenuKey Q) :
  NoDup (JSMap.keys m) -> (r == 0)%Q ->
  JSMap.get MenuKey_eqb k (observe k r m) = None.
Proof.
  intros Hnd H. unfold observe.
  assert (E : Qgtb r 0 = false).
  { apply Qgtb_false. rewrite H. apply Qle_refl. }
  rewrite E. now apply (get_delete_same MenuKey_eqb MenuKey_eqb_eq).
Qed.

Lemma observe_other (k k' : MenuKey) (r : Q) (m : JSMap.t MenuKey Q) :
  k <> k' ->
  JSMap.get MenuKey_eqb k' (observe k r m) = JSMap.get MenuKey_eqb k' m.
Proof.
  intros H. unfold observe. destruct (Qgtb r 0).
  - now apply (get_set_other MenuKey_eqb MenuKey_eqb_eq).
  - now apply (get_delete_other MenuKey_eqb MenuKey_eqb_eq).
Qed.

(** C7: the visibility map holds strictly positive ratios only.  When the
    ratios delivered by the observers are in [0, 1], then after any
    sequence of events (observations, replacements of the observed keys,
    timeouts) every entry of the map has a ratio in (0, 1], under distinct
    keys.  In any such state an observation with a ratio above 0 sets the
    key to that ratio, whatever it held before, one with ratio 0 removes
    the key, and the other keys keep what they had. *)
Theorem C7_positive_ratios (split middle container : bool)
        (events : list Event) :
  ratiosInRange events ->
  let st := run events (initial split middle container) in
  let m := visibilityRatios st in
  ratiosPositive m /\
  (forall k r, JSMap.get MenuKey_eqb k m = Some r ->
               (0 < r)%Q /\ (r <= 1)%Q) /\
  (forall k r, (0 < r)%Q ->
     JSMap.get MenuKey_eqb k (visibilityRatios (onIntersection k r st))
     = Some r) /\
  (forall k r, (r == 0)%Q ->
     JSMap.get MenuKey_eqb k (visibilityRatios (onIntersection k r st))
     = None) /\
  (forall k k' r, k <> k' ->
     JSMap.get MenuKey_eqb k' (visibilityRatios (onIntersection k r st))
     = JSMap.get MenuKey_eqb k' m).
Proof.
  intros Hr st m.
  assert (Hp : ratiosPositive m).
  { apply run_positive; [apply ratiosPositive_empty | assumption]. }
  split; [assumption|]. split.
  { intros k r G. apply get_Some_In in G; [|apply MenuKey_eqb_eq].
    exact (proj2 Hp (k, r) G). }
  split; [intros k r H; rewrite onIntersection_ratios; now apply observe_set|].
  split.
  { intros k r H. rewrite onIntersection_ratios.
    apply observe_remove; [exact (proj1 Hp) | assumption]. }
  intros k k' r H. rewrite onIntersection_ratios. now apply observe_other.
Qed.

Lemma C7_positive_ratios_witness :
  ratiosPositive
    (visibilityRatios
       (run [Observe general ratio_0_5; Observe backend ratio_0_25;
             Elapse 30; Observe general 0%Q]
            (initial true true true))) /\
  visibilityRatios
    (run [Observe general ratio_0_5; Observe backend ratio_0_25;
          Elapse 30; Observe general 0%Q]
         (initial true true true)) = [(backend, ratio_0_25)].
Proof.
  split; [|reflexivity].
  refine (proj1 (C7_positive_ratios true true true
                   [Observe general ratio_0_5; Observe backend ratio_0_25;
                    Elapse 30; Observe general 0%Q] _)).
  intros k r [H|[H|[H|[H|[]]]]]; inversion H; subst; split; discriminate.
Defined.

(* ================================================================= *)
(** * Replacing the observed keys *)

(** C2, as the code has it: replacing the observed keys clears every
    visibility entry at once and touches nothing else; a pending debounce
    timeout stays pending.  When it comes due after the replacement, with
    no observation in between, it runs its recomputation once, on the
    cleared map, which selects nothing: the active key stays as it was. *)
Theorem C2_setup_clears_map (st : State) :
  let st' := setupIntersectionObservers st in
  visibilityRatios st' = [] /\
  timers st' = timers st /\
  updateTimer st' = updateTimer st /\
  recomputations st' = recomputations st /\
  activeMenuKey st' = activeMenuKey st /\
  (forall tid due ms,
     timers st = [(tid, due)] -> due <= now st + ms ->
     let st'' := elapse ms st' in
     recomputations st'' = recomputations st ++ [[]] /\
     activeMenuKey st'' = activeMenuKey st /\
     visibilityRatios st'' = [] /\
     timers st'' = [] /\ updateTimer st'' = None).
Proof.
  intros st'. repeat (split; [reflexivity|]).
  intros tid due ms Ht Hle st''. subst st'' st'.
  rewrite (elapse_fire ms tid due (setupIntersectionObservers st) Ht Hle).
  set (s := withNow _ _).
  destruct (timerCallback_fields s) as (Hv & Hu & _ & Ht' & _ & Hr).
  rewrite Hv, Hu, Ht', Hr, timerCallback_active.
  repeat split.
  unfold updateActiveMenuByVisibility. simpl. split_ifs; reflexivity.
Qed.

(** C2 as stated fails: an observation at time 0 schedules the debounce
    for time 100; the observed keys are replaced at time 50, which leaves
    that timeout pending; at time 100 it fires and recomputes. *)
Lemma C2_counterexample :
  let st := run [Observe general ratio_0_5; Elapse 50]
                (initial true true true) in
  let st' := setupIntersectionObservers st in
  timers st = [(1, 100)] /\
  timers st' = [(1, 100)] /\
  updateTimer st' = Some 1 /\
  recomputations st' = [] /\
  recomputations (elapse 50 st') = [[]].
Proof. repeat split. Qed.

(* ================================================================= *)
(** * The debounce *)

(** An observation followed by less than the quiet interval: the map is
    updated, one timeout is pending, nothing has been recomputed. *)
Lemma observe_then_wait (k : MenuKey) (r : Q) (gap : nat) (st : State) :
  timerInv st -> gap < quiet ->
  let st' := elapse gap (onIntersection k r st) in
  timerInv st' /\
  recomputations st' = recomputations st /\
  visibilityRatios st' = observe k r (visibilityRatios st) /\
  activeMenuKey st' = activeMenuKey st /\
  isMiddleScreen st' = isMiddleScreen st /\
  scrollContainerRef st' = scrollContainerRef st.
Proof.
  intros H Hgap st'. subst st'.
  split; [now apply timerInv_elapse, timerInv_onIntersection|].
  rewrite onIntersection_spec by assumption.
  rewrite (elapse_early gap (nextTimerId st) (now st + quiet));
    [repeat split | reflexivity | simpl; lia].
Qed.

Lemma burst_run (burst : list (MenuKey * Q * nat)) (st : State) :
  timerInv st -> (forall b, In b burst -> snd b < quiet) ->
  let st' := run (burstEvents burst) st in
  timerInv st' /\
  recomputations st' = recomputations st /\
  visibilityRatios st' = observations burst (visibilityRatios st) /\
  activeMenuKey st' = activeMenuKey st /\
  isMiddleScreen st' = isMiddleScreen st /\
  scrollContainerRef st' = scrollContainerRef st.
Proof.
  revert st. induction burst as [|[[k r] gap] burst IH]; intros st H Hgap.
  - simpl. split; [assumption | repeat split].
  - assert (Hg : gap < quiet) by (apply (Hgap (k, r, gap)); now left).
    destruct (observe_then_wait k r gap st H Hg)
      as (H1 & Hr1 & Hv1 & Ha1 & Hm1 & Hs1).
    assert (Hgap' : forall b, In b burst -> snd b < quiet)
      by (intros b Hb; apply Hgap; now right).
    destruct (IH _ H1 Hgap') as (H2 & Hr2 & Hv2 & Ha2 & Hm2 & Hs2).
    change (run (burstEvents ((k, r, gap) :: burst)) st)
      with (run (burstEvents burst) (elapse gap (onIntersection k r st))).
    cbv zeta. rewrite Hr2, Hv2, Ha2, Hm2, Hs2, Hr1, Hv1, Ha1, Hm1, Hs1.
    split; [assumption | repeat split].
Qed.

(** An observation followed by at least the quiet interval: the pending
    timeout fires, once, on the map as it then is. *)
Lemma observe_then_settle (k : MenuKey) (r : Q) (d : nat) (st : State) :
  timerInv st -> quiet <= d ->
  let st' := elapse d (onIntersection k r st) in
  visibilityRatios st' = observe k r (visibilityRatios st) /\
  recomputations st' = recomputations st ++ [visibilityRatios st'] /\
  timers st' = [] /\ updateTimer st' = None /\
  activeMenuKey st' =
  activeMenuKey
    (updateActiveMenuByVisibility
       (withRatios (observe k r (visibilityRatios st)) st)).
Proof.
  intros H Hd st'. subst st'.
  rewrite onIntersection_spec by assumption.
  rewrite (elapse_fire d (nextTimerId st) (now st + quiet));
    [| reflexivity | simpl; lia].
  set (s := withNow _ _).
  destruct (timerCallback_fields s) as (Hv & Hu & _ & Ht & _ & Hr).
  rewrite Hv, Hu, Ht, Hr, timerCallback_active.
  repeat split.
  unfold updateActiveMenuByVisibility. simpl. split_ifs; reflexivity.
Qed.

(** C8: the debounce is single-flight.  In every reachable state at most
    one timeout is pending; a call of [debouncedUpdateActiveMenu] leaves
    the new timeout as the only pending one, so a prior one is cancelled;
    and a burst of observations, each followed by less than the quiet
    interval of 100 ms, then a last observation followed by at least that
    interval, runs the recomputation exactly once, on the map that results
    from all the observations of the burst; that run activates the most
    visible key of that map, if any. *)
Theorem C8_single_flight (split middle container : bool)
        (history : list Event) (burst : list (MenuKey * Q * nat))
        (k : MenuKey) (r : Q) (d : nat) :
  (forall b, In b burst -> snd b < quiet) ->
  quiet <= d ->
  let st := run history (initial split middle container) in
  let events := burstEvents burst ++ [Observe k r; Elapse d] in
  let st' := run events st in
  (forall n, List.length (timers (run (firstn n events) st)) <= 1) /\
  (timers (debouncedUpdateActiveMenu st) = [(nextTimerId st, now st + quiet)]
   /\ updateTimer (debouncedUpdateActiveMenu st) = Some (nextTimerId st)
   /\ forall tid, updateTimer st = Some tid -> tid <> nextTimerId st) /\
  recomputations st' = recomputations st ++ [visibilityRatios st'] /\
  visibilityRatios st' =
    observe k r (observations burst (visibilityRatios st)) /\
  timers st' = [] /\ updateTimer st' = None /\
  (isMiddleScreen st = true -> scrollContainerRef st = true ->
   activeMenuKey st' =
   match selectMostVisible (visibilityRatios st') with
   | Some key => key
   | None => activeMenuKey st
   end).
Proof.
  intros Hgap Hd st events st'.
  assert (Hinv : timerInv st)
    by apply timerInv_run, timerInv_initial.
  split.
  { intros n. apply timerInv_single. now apply timerInv_run. }
  split.
  { rewrite debounced_spec by assumption. simpl. repeat split.
    intros tid Hu.
    destruct Hinv as [_ [[_ Hn] | (tid' & due & _ & Hu' & _ & Hlt & _)]];
      [congruence|].
    assert (tid = tid') by congruence. lia. }
  destruct (burst_run burst st Hinv Hgap)
    as (Hb & Hrb & Hvb & Hab & Hmb & Hsb).
  destruct (observe_then_settle k r d (run (burstEvents burst) st) Hb Hd)
    as (Hv & Hr & Ht & Hu & Ha).
  assert (E : st' = elapse d (onIntersection k r
                                 (run (burstEvents burst) st))).
  { unfold st', events. now rewrite run_app. }
  rewrite E, Hv, Ht, Hu, Hr, Hv, Hrb, Hvb.
  repeat split.
  intros Hm Hs. rewrite Ha. unfold updateActiveMenuByVisibility. simpl.
  rewrite Hmb, Hsb, Hm, Hs, Hvb. simpl.
  destruct (selectMostVisible
              (observe k r (observations burst (visibilityRatios st))))
    as [key|]; [|exact Hab].
  rewrite Hab.
  destruct (MenuKey_eqb key (activeMenuKey st)) eqn:Ek; [|reflexivity].
  apply MenuKey_eqb_eq in Ek. simpl. now rewrite Hab.
Qed.

Lemma C8_single_flight_witness :
  let st := run (burstEvents [(general, ratio_0_5, 40);
                              (backend, ratio_0_35, 99);
                              (general, 0%Q, 10)]
                 ++ [Observe proxies ratio_0_25; Elapse 100])
                (initial true true true) in
  recomputations st = [[(backend, ratio_0_35); (proxies, ratio_0_25)]] /\
  activeMenuKey st = backend.
Proof.
  pose proof (C8_single_flight true true true []
                [(general, ratio_0_5, 40); (backend, ratio_0_35, 99);
                 (general, 0%Q, 10)]
                proxies ratio_0_25 100) as H.
  assert (Hgap : forall b,
             In b [(general, ratio_0_5, 40); (backend, ratio_0_35, 99);
                   (general, 0%Q, 10)] -> snd b < quiet).
  { intros b [<-|[<-|[<-|[]]]]; unfold quiet; simpl; lia. }
  assert (Hd : quiet <= 100) by (unfold quiet; lia).
  destruct (H Hgap Hd) as (_ & _ & Hr & Hv & _ & _ & Ha).
  change (run [] (initial true true true))
    with (initial true true true) in Hr, Hv, Ha.
  intros st. subst st. split.
  - rewrite Hr, Hv. reflexivity.
  - rewrite (Ha eq_refl eq_refl), Hv. reflexivity.
Defined.

(* ================================================================= *)
(** * Further properties of the graph *)

(** The key of a pair of ids, split at the dash and read back as numbers,
    gives the pair again, and two pairs with the same key are equal. *)
Theorem link_key_round_trip (s t w s' t' : nat) :
  mkLink (linkKey s t, w) =
    {| source := Some s; target := Some t; value := w |} /\
  map JS.Number_ (JS.split "-" (linkKey s t)) = [Some s; Some t] /\
  (linkKey s t = linkKey s' t' -> s = s' /\ t = t').
Proof.
  split; [apply mkLink_linkKey|]. split.
  - rewrite split_linkKey. simpl. now rewrite !Number_String_.
  - apply linkKey_inj.
Qed.

Lemma registered_get (a : Agg) (x : string) :
  In x (JSMap.keys (nodeMap a)) ->
  sget x (nodeMap a) = Some (nodeId a x).
Proof.
  intros H. unfold nodeId. destruct (sget x (nodeMap a)) eqn:G; [reflexivity|].
  apply (get_None_keys String.eqb string_eqb_eq) in G. contradiction.
Qed.

Lemma occ_pos_In (p : nat * nat) (es : list (nat * nat)) :
  1 <= occ p es <-> In p es.
Proof.
  unfold occ. rewrite (count_occ_In pair_eq_dec). unfold gt. lia.
Qed.

(** A link of the graph comes from a named edge of the input, and its ends
    are the ids of the two names. *)
Lemma link_named (conns : list Connection) (s t w : nat) :
  In (linkOf s t w) (map mkLink (linkMap (aggregate conns))) ->
  exists x y,
    In (x, y) (flat_map namedEdges conns) /\
    sget x (nodeMap (aggregate conns)) = Some s /\
    sget y (nodeMap (aggregate conns)) = Some t.
Proof.
  intros H. apply (link_in_graph _ s t w (aggregate_wfLinks conns)) in H.
  destruct H as [Hpos Hw]. rewrite aggregate_weight in Hw. subst w.
  apply occ_pos_In in Hpos. unfold edgeOccurrences in Hpos.
  rewrite map_flat_map_edges in Hpos. apply in_map_iff in Hpos.
  destruct Hpos as [[x y] [He Hin]]. exists x, y.
  destruct (namedEdges_registered conns (x, y) Hin) as [Hx Hy].
  cbn [fst snd] in Hx, Hy. unfold idPair in He. cbn [fst snd] in He.
  inversion He. split; [assumption|].
  split; now apply registered_get.
Qed.

Lemma node_at_id (conns : list Connection) (x : string) (i : nat) :
  sget x (nodeMap (aggregate conns)) = Some i ->
  exists n, nth_error (nodes (sankeyData (Some conns))) i = Some n /\
            id n = i /\ name n = x.
Proof.
  intros G. rewrite sankeyData_Some. cbn [nodes].
  rewrite nth_error_map,
    (wfRegistry_position _ x i (aggregate_wf conns) G).
  simpl. eexists. repeat split.
Qed.

(** Referential integrity: the two ends of every link of the graph are ids
    of nodes of the graph, each node sitting at the position of its id, and
    the link stands for an edge of the input between the names of these
    two nodes. *)
Theorem links_join_nodes (conns : list Connection) (l : Link) :
  In l (links (sankeyData (Some conns))) ->
  exists ns nt,
    source l = Some (id ns) /\ target l = Some (id nt) /\
    nth_error (nodes (sankeyData (Some conns))) (id ns) = Some ns /\
    nth_error (nodes (sankeyData (Some conns))) (id nt) = Some nt /\
    In (name ns, name nt) (flat_map namedEdges conns).
Proof.
  intros H. rewrite sankeyData_Some in H. cbn [links] in H.
  destruct (links_shape _ l (aggregate_wfLinks conns) H) as (s & t & Hl & _).
  rewrite Hl in H. destruct (link_named conns s t _ H) as (x & y & He & Gx & Gy).
  destruct (node_at_id conns x s Gx) as (ns & Hns & Hid & Hnm).
  destruct (node_at_id conns y t Gy) as (nt & Hnt & Hid' & Hnm').
  exists ns, nt. rewrite Hl. simpl. subst s t x y. auto.
Qed.

Lemma links_join_nodes_witness :
  exists ns nt,
    name ns = "Match" /\ name nt = "HK" /\
    In (name ns, name nt)
       (flat_map namedEdges [connection "10.0.0.1" "Match" ["HK"]]).
Proof.
  destruct (links_join_nodes [connection "10.0.0.1" "Match" ["HK"]]
              (linkOf 1 2 1))
    as (ns & nt & Hs & Ht & Hns & Hnt & Hin).
  - simpl. right. left. reflexivity.
  - exists ns, nt. simpl in Hs, Ht. inversion Hs as [Hs']. inversion Ht as [Ht'].
    rewrite <- Hs' in Hns. rewrite <- Ht' in Hnt.
    simpl in Hns, Hnt. inversion Hns. inversion Hnt. simpl.
    repeat split. right. left. reflexivity.
Defined.

Lemma occurrence_has_edge (c : Connection) (x : string) :
  In x (map fst (occurrences c)) ->
  exists e, In e (namedEdges c) /\ (fst e = x \/ snd e = x).
Proof.
  unfold occurrences, namedEdges. destruct (chainsOf c); [intros []|].
  simpl. intros [<-|[<-|[<-|[<-|[]]]]].
  - eexists. split; [left; reflexivity | simpl; auto].
  - eexists. split; [left; reflexivity | simpl; auto].
  - eexists. split; [right; left; reflexivity | simpl; auto].
  - eexists. split; [right; right; left; reflexivity | simpl; auto].
Qed.

Lemma named_edge_link (conns : list Connection) (e : string * string) :
  In e (flat_map namedEdges conns) ->
  exists w,
    In (linkOf (nodeId (aggregate conns) (fst e))
               (nodeId (aggregate conns) (snd e)) w)
       (links (sankeyData (Some conns))).
Proof.
  intros H. rewrite sankeyData_Some. cbn [links].
  exists (weightIn (aggregate conns) (idPair (aggregate conns) e)).
  apply (link_in_graph _ _ _ _ (aggregate_wfLinks conns)).
  split; [|reflexivity].
  change (nodeId (aggregate conns) (fst e), nodeId (aggregate conns) (snd e))
    with (idPair (aggregate conns) e).
  rewrite aggregate_weight. apply occ_pos_In.
  unfold edgeOccurrences. rewrite map_flat_map_edges. now apply in_map.
Qed.

(** No node is isolated: every node of the graph is the source or the
    target of at least one link. *)
Theorem every_node_has_a_link (conns : list Connection) (n : Node) :
  In n (nodes (sankeyData (Some conns))) ->
  exists l, In l (links (sankeyData (Some conns))) /\
            (source l = Some (id n) \/ target l = Some (id n)).
Proof.
  intros H. pose proof H as H'. rewrite sankeyData_Some in H'. cbn [nodes] in H'.
  apply in_map_iff in H'. destruct H' as [[x i] [Hn Hin]]. subst n.
  cbn [mkNode id].
  assert (G : sget x (nodeMap (aggregate conns)) = Some i).
  { apply (In_get_Some String.eqb string_eqb_eq); [|assumption].
    apply aggregate_wf. }
  assert (Hx : In x (map fst (allOccurrences conns))).
  { apply aggregate_keys. apply get_Some_In in G; [|apply string_eqb_eq].
    change x with (fst (x, i)). now apply in_map. }
  unfold allOccurrences in Hx. rewrite flat_map_concat_map, concat_map,
    map_map in Hx. apply in_concat in Hx. destruct Hx as [names [Hc Hx]].
  apply in_map_iff in Hc. destruct Hc as [c [<- Hc]].
  destruct (occurrence_has_edge c x Hx) as [e [He Hends]].
  assert (Hin' : In e (flat_map namedEdges conns)).
  { apply in_flat_map. exists c. now split. }
  destruct (named_edge_link conns e Hin') as [w Hw].
  eexists. split; [exact Hw|]. simpl. unfold nodeId.
  destruct Hends as [-> | ->]; rewrite G; auto.
Qed.

Lemma every_node_has_a_link_witness :
  exists l,
    In l (links (sankeyData (Some [connection "10.0.0.1" "Match" ["HK"]]))) /\
    (source l = Some 0 \/ target l = Some 0).
Proof.
  apply (every_node_has_a_link [connection "10.0.0.1" "Match" ["HK"]]
           {| id := 0; name := "10.0.0.1"; color := Some "#5470c6" |}).
  simpl. left. reflexivity.
Defined.

Lemma sum_after_increment (k : string) (m : JSMap.t string nat) :
  list_sum (map snd
              (JSMap.set String.eqb k (JS.or_number (sget k m) 0 + 1) m)) =
  list_sum (map snd m) + 1.
Proof.
  induction m as [|[k' v'] m IH]; [reflexivity|].
  cbn [JSMap.get JSMap.set]. destruct (String.eqb k' k).
  - rewrite or_number_Some. cbn [map snd list_sum fold_right]. lia.
  - cbn [map snd]. change (list_sum (?x :: ?l)) with (x + list_sum l).
    rewrite IH. change (list_sum (v' :: map snd m)) with (v' + list_sum (map snd m)).
    lia.
Qed.

Lemma bump_total (k : string) (a : Agg) :
  totalWeight (bump k a) = totalWeight a + 1.
Proof. unfold totalWeight, bump. cbn [linkMap]. apply sum_after_increment. Qed.

Lemma addEdges_total (es : list (nat * nat)) (a : Agg) :
  totalWeight (addEdges es a) = totalWeight a + List.length es.
Proof.
  revert a. induction es as [|p es IH]; intros a; [simpl; lia|].
  change (addEdges (p :: es) a)
    with (addEdges es (bump (linkKey (fst p) (snd p)) a)).
  rewrite IH, bump_total. simpl. lia.
Qed.

Lemma edgesOf_length (a : Agg) (c : Connection) :
  List.length (edgesOf a c) = if hasChain c then 3 else 0.
Proof. unfold edgesOf, hasChain. now destruct (chainsOf c). Qed.

Lemma occurrences_length (c : Connection) :
  List.length (occurrences c) = if hasChain c then 4 else 0.
Proof. unfold occurrences, hasChain. now destruct (chainsOf c). Qed.

Lemma fold_processConn_total (conns : list Connection) (a : Agg) :
  wfRegistry a ->
  totalWeight (fold_left processConn conns a) =
  totalWeight a + 3 * processed conns.
Proof.
  revert a. induction conns as [|c conns IH]; intros a W.
  - simpl. unfold processed. simpl. lia.
  - cbn [fold_left]. rewrite IH by now apply processConn_wf.
    rewrite processConn_eq by assumption.
    rewrite addEdges_total, edgesOf_length. unfold totalWeight at 1.
    rewrite register_linkMap. fold (totalWeight a).
    unfold processed. cbn [filter]. destruct (hasChain c); simpl; lia.
Qed.

Lemma values_of_links (lm : JSMap.t string nat) :
  map value (map mkLink lm) = map snd lm.
Proof. rewrite map_map. apply map_ext. now intros [k v]. Qed.

Lemma link_weights_add_up_aux (conns : list Connection) :
  list_sum (map value (links (sankeyData (Some conns)))) =
  3 * processed conns.
Proof.
  rewrite sankeyData_Some. cbn [links]. rewrite values_of_links.
  change (list_sum (map snd (linkMap (aggregate conns))))
    with (totalWeight (aggregate conns)).
  unfold aggregate. now rewrite fold_processConn_total by apply wfRegistry_Agg0.
Qed.

(** Conservation of weight: the weights of the links add up to three times
    the number of records that have a chain, whatever names the records
    share. *)
Theorem link_weights_add_up (conns : list Connection) :
  list_sum (map value (links (sankeyData (Some conns)))) =
  3 * List.length (filter hasChain conns).
Proof. apply link_weights_add_up_aux. Qed.

Lemma register_size (occs : list (string * nat)) (a : Agg) :
  wfRegistry a ->
  List.length (nodeMap (register occs a)) <=
  List.length (nodeMap a) + List.length occs.
Proof.
  revert a. induction occs as [|[n l] occs IH]; intros a W; [simpl; lia|].
  rewrite register_cons.
  eapply Nat.le_trans; [apply IH; now apply addNode_wf|].
  destruct (sget n (nodeMap a)) as [i|] eqn:G.
  - rewrite (addNode_known n l i a G). simpl. lia.
  - rewrite (addNode_new n l a W G). simpl. rewrite length_app. simpl. lia.
Qed.

Lemma allOccurrences_length (conns : list Connection) :
  List.length (allOccurrences conns) = 4 * processed conns.
Proof.
  unfold allOccurrences, processed.
  induction conns as [|c conns IH]; [reflexivity|].
  cbn [flat_map filter]. rewrite length_app, IH, occurrences_length.
  destruct (hasChain c); simpl; lia.
Qed.

Lemma length_le_sum (l : list nat) :
  Forall (fun v => 1 <= v) l -> List.length l <= list_sum l.
Proof.
  induction 1 as [|v l Hv _ IH]; simpl; lia.
Qed.

(** Size of the graph: at most four nodes and at most three links per
    record that has a chain. *)
Theorem graph_size_bounds (conns : list Connection) :
  List.length (nodes (sankeyData (Some conns))) <= 4 * processed conns /\
  List.length (links (sankeyData (Some conns))) <= 3 * processed conns.
Proof.
  split.
  - rewrite sankeyData_Some. cbn [nodes]. rewrite length_map.
    destruct (aggregate_registry conns) as (-> & _).
    rewrite <- allOccurrences_length.
    apply (register_size (allOccurrences conns) Agg0 wfRegistry_Agg0).
  - rewrite <- link_weights_add_up_aux.
    rewrite <- (length_map value). apply length_le_sum.
    rewrite sankeyData_Some. cbn [links]. rewrite values_of_links.
    destruct (aggregate_wfLinks conns) as [_ H].
    rewrite Forall_forall in *. intros v Hv.
    apply in_map_iff in Hv. destruct Hv as [e [<- He]]. now apply H.
Qed.

Lemma processed_zero_graph (conns : list Connection) :
  processed conns = 0 -> sankeyData (Some conns) = emptyGraph.
Proof.
  intros H. rewrite !sankeyData_Some. unfold aggregate.
  rewrite <- fold_processConn_filter.
  unfold processed in H. apply length_zero_iff_nil in H. now rewrite H.
Qed.

Lemma nodes_nil_processed (conns : list Connection) :
  nodes (sankeyData (Some conns)) = [] -> processed conns = 0.
Proof.
  intros H. unfold processed.
  destruct (filter hasChain conns) as [|c rest] eqn:F; [reflexivity|].
  exfalso.
  assert (Hc : In c (filter hasChain conns)) by (rewrite F; now left).
  apply filter_In in Hc. destruct Hc as [Hin Hch].
  assert (Hx : In (sourceLabel c) (map fst (allOccurrences conns))).
  { unfold allOccurrences. rewrite flat_map_concat_map, concat_map, map_map.
    apply in_concat. exists (map fst (occurrences c)). split.
    - apply in_map_iff. exists c. auto.
    - unfold occurrences, hasChain in *. destruct (chainsOf c);
        [discriminate | simpl; auto]. }
  apply aggregate_keys in Hx. rewrite <- names_of_nodes with (a := aggregate conns) in Hx.
  rewrite sankeyData_Some in H. cbn [nodes] in H. rewrite H in Hx.
  destruct Hx.
Qed.

Lemma chainless_filter (conns : list Connection) :
  (forall c, In c conns -> chainsOf c = []) -> filter hasChain conns = [].
Proof.
  induction conns as [|c conns IH]; intros H; [reflexivity|].
  cbn [filter]. unfold hasChain at 1. rewrite (H c) by now left.
  simpl. apply IH. intros c' Hc'. apply H. now right.
Qed.

(** The empty state: the graph has no node exactly when it has no link,
    and exactly when no record has a chain.  The placeholder of the
    template is shown in that case and in no other, and that is when an
    existing chart is cleared instead of being given the series. *)
Theorem empty_state (conns : list Connection) :
  let g := sankeyData (Some conns) in
  (nodes g = [] <-> links g = []) /\
  (nodes g = [] <-> forall c, In c conns -> chainsOf c = []) /\
  (showPlaceholder g = true <-> nodes g = []) /\
  (showPlaceholder g = true -> updateChartData true g = Clear) /\
  (showPlaceholder g = false ->
   updateChartData true g = SetSeries (nodes g) (links g)) /\
  (forall data, updateChartData false data = Nothing).
Proof.
  intros g.
  assert (N : nodes g = [] <-> processed conns = 0).
  { split; [apply nodes_nil_processed|].
    intros H. unfold g. now rewrite (processed_zero_graph conns H). }
  assert (L : links g = [] <-> processed conns = 0).
  { split.
    - intros H. pose proof (link_weights_add_up_aux conns) as S.
      fold g in S. rewrite H in S. simpl in S. lia.
    - intros H. unfold g. now rewrite (processed_zero_graph conns H). }
  assert (P : showPlaceholder g = true <-> nodes g = []).
  { unfold showPlaceholder. rewrite Nat.eqb_eq. apply length_zero_iff_nil. }
  split; [now rewrite N, L|]. split.
  { rewrite N. unfold processed. rewrite length_zero_iff_nil. split.
    - intros H c Hc. destruct (chainsOf c) eqn:E; [reflexivity|].
      assert (Hin : In c (filter hasChain conns)).
      { apply filter_In. split; [assumption|]. unfold hasChain.
        now rewrite E. }
      rewrite H in Hin. destruct Hin.
    - apply chainless_filter. }
  split; [exact P|]. split.
  { intros H. unfold updateChartData. unfold showPlaceholder in H.
    apply Nat.eqb_eq in H. rewrite H. reflexivity. }
  split.
  { intros H. unfold updateChartData. unfold showPlaceholder in H.
    apply Nat.eqb_neq in H.
    destruct (Nat.ltb_spec 0 (List.length (nodes g))); [reflexivity | lia]. }
  intros data. reflexivity.
Qed.

Lemma occurrence_layer (c : Connection) (x : string) (l : nat) :
  In (x, l) (occurrences c) -> l < 4.
Proof.
  unfold occurrences. destruct (chainsOf c); [intros []|].
  simpl. intros [H|[H|[H|[H|[]]]]]; inversion H; lia.
Qed.

Lemma aggregate_layer_bound (conns : list Connection) (x : string) (l : nat) :
  sget x (layerMap (aggregate conns)) = Some l -> l < 4.
Proof.
  rewrite aggregate_layer. intros G.
  apply get_Some_In in G; [|apply string_eqb_eq].
  unfold allOccurrences in G. apply in_flat_map in G.
  destruct G as [c [_ Hc]]. exact (occurrence_layer c x l Hc).
Qed.

Lemma registered_layer (conns : list Connection) (x : string) :
  In x (JSMap.keys (nodeMap (aggregate conns))) ->
  exists l, sget x (layerMap (aggregate conns)) = Some l /\ l < 4.
Proof.
  intros H. destruct (aggregate_wf conns) as (_ & _ & _ & Hk).
  rewrite <- Hk in H.
  destruct (sget x (layerMap (aggregate conns))) as [l|] eqn:G.
  - exists l. split; [reflexivity|]. exact (aggregate_layer_bound conns x l G).
  - apply (get_None_keys String.eqb string_eqb_eq) in G. contradiction.
Qed.

Lemma getNodeTypeName_layer (conns : list Connection) (x : string) :
  getNodeTypeName (Some conns) x =
  keyOfLayer (sget x (layerMap (aggregate conns))).
Proof.
  rewrite getNodeTypeName_Some. unfold aggregate.
  rewrite scan_agrees_with_layer;
    [reflexivity | apply wfRegistry_Agg0 | discriminate].
Qed.

(** Every node has a colour: its layer is one of 0, 1, 2, 3, and its colour
    is the entry of the palette at that index, never undefined; the role
    that the tooltip shows for the node is the one of the same layer. *)
Theorem every_node_has_a_colour (conns : list Connection) (n : Node) :
  In n (nodes (sankeyData (Some conns))) ->
  exists l c,
    l < 4 /\
    JSMap.get String.eqb (name n) (layerMap (aggregate conns)) = Some l /\
    nth_error layerColors l = Some c /\
    color n = Some c /\
    getNodeTypeName (Some conns) (name n) = keyOfLayer (Some l).
Proof.
  intros H. rewrite sankeyData_Some in H. cbn [nodes] in H.
  apply in_map_iff in H. destruct H as [[x i] [<- Hin]].
  assert (Hx : In x (JSMap.keys (nodeMap (aggregate conns)))).
  { change x with (fst (x, i)). now apply in_map. }
  destruct (registered_layer conns x Hx) as (l & G & Hl).
  cbn [mkNode name color]. rewrite getNodeTypeName_layer, G, or_number_Some.
  unfold JS.index.
  destruct (nth_error layerColors l) as [c|] eqn:E.
  - exists l, c. auto.
  - apply nth_error_None in E. simpl in E. lia.
Qed.

Lemma every_node_has_a_colour_witness :
  exists l c,
    l < 4 /\ nth_error layerColors l = Some c /\ c = "#fac858".
Proof.
  destruct (every_node_has_a_colour [connection "10.0.0.1" "Match" ["HK"]]
              {| id := 2; name := "HK"; color := Some "#fac858" |})
    as (l & c & Hl & _ & Hc & Hcol & _).
  - simpl. right. right. left. reflexivity.
  - exists l, c. simpl in Hcol. repeat split; [assumption | assumption |].
    congruence.
Defined.

Lemma layerMap_stable (a b : Agg) (x : string) :
  wfRegistry a -> extends a b -> In x (JSMap.keys (nodeMap a)) ->
  sget x (layerMap b) = sget x (layerMap a).
Proof.
  intros (_ & _ & _ & Hk) [_ [ext ->]] Hx. rewrite <- Hk in Hx.
  destruct (sget x (layerMap a)) as [l|] eqn:G.
  - now apply get_app_l.
  - apply (get_None_keys String.eqb string_eqb_eq) in G. contradiction.
Qed.

(** Appending connections never renumbers or recolours a node: the nodes
    of the shorter list are the first nodes of the longer one, and every
    link of the shorter list is a link of the longer one with at least the
    same weight. *)
Theorem appending_keeps_the_graph (conns more : list Connection) :
  (exists extra,
     nodes (sankeyData (Some (conns ++ more))) =
     nodes (sankeyData (Some conns)) ++ extra) /\
  (forall s t w,
     In (linkOf s t w) (links (sankeyData (Some conns))) ->
     exists w', w <= w' /\
                In (linkOf s t w') (links (sankeyData (Some (conns ++ more))))).
Proof.
  rewrite !sankeyData_Some. cbn [nodes links].
  assert (E : aggregate (conns ++ more) =
              fold_left processConn more (aggregate conns)).
  { unfold aggregate. apply fold_left_app. }
  pose proof (aggregate_wf conns) as W.
  pose proof (fold_processConn_extends more (aggregate conns) W) as X.
  rewrite <- E in X. split.
  - destruct X as [[ext Hn] _]. exists (map (mkNode (aggregate (conns ++ more))) ext).
    rewrite Hn, map_app. f_equal. apply map_ext_in. intros [x i] Hin.
    cbn [mkNode]. f_equal. f_equal. f_equal.
    apply layerMap_stable; [assumption | | ].
    + split; [now exists ext|]. destruct (fold_processConn_extends more (aggregate conns) W) as [_ HL].
      now rewrite <- E in HL.
    + change x with (fst (x, i)). now apply in_map.
  - intros s t w H.
    apply (link_in_graph _ s t w (aggregate_wfLinks conns)) in H.
    destruct H as [Hpos Hw].
    exists (weightIn (aggregate (conns ++ more)) (s, t)).
    assert (Hle : w <= weightIn (aggregate (conns ++ more)) (s, t)).
    { rewrite E, (fold_processConn_weight more (aggregate conns) (s, t) W).
      lia. }
    split; [assumption|].
    apply (link_in_graph _ s t _ (aggregate_wfLinks (conns ++ more))).
    split; [lia | reflexivity].
Qed.

Lemma named_link_iff (conns : list Connection) (x y : string) (w : nat) :
  In x (JSMap.keys (nodeMap (aggregate conns))) ->
  In y (JSMap.keys (nodeMap (aggregate conns))) ->
  (In (linkOf (nodeId (aggregate conns) x) (nodeId (aggregate conns) y) w)
      (links (sankeyData (Some conns))) <->
   1 <= w /\
   w = count_occ namePair_eq_dec (flat_map namedEdges conns) (x, y)).
Proof.
  intros Hx Hy. rewrite sankeyData_Some. cbn [links].
  rewrite (link_in_graph _ _ _ w (aggregate_wfLinks conns)), aggregate_weight.
  change (nodeId (aggregate conns) x, nodeId (aggregate conns) y)
    with (idPair (aggregate conns) (x, y)).
  now rewrite named_pair_weight.
Qed.

Lemma names_of_graph (conns : list Connection) (x : string) :
  In x (map name (nodes (sankeyData (Some conns)))) <->
  In x (JSMap.keys (nodeMap (aggregate conns))).
Proof. rewrite sankeyData_Some. cbn [nodes]. now rewrite names_of_nodes. Qed.



(* ================================================================= *)
(** * Tooltips and labels *)

Lemma keyOfLayer_known (l : nat) : l < 4 -> keyOfLayer (Some l) <> unknown.
Proof.
  intros H. destruct l as [|[|[|[|l]]]]; simpl; try discriminate. lia.
Qed.

(** The node tooltip knows every node of the graph it is shown on: the
    lookup answers [unknown] exactly for the names that are not names of
    nodes of the graph of the same connections, and for a node it shows
    the name, a line break and the translated role. *)
Theorem node_tooltip_knows_the_nodes (t : string -> string)
        (conns : list Connection) (x : string) :
  (getNodeTypeName (Some conns) x = unknown <->
   ~ In x (map name (nodes (sankeyData (Some conns))))) /\
  tooltipFormatter t (Some conns) (nodeParams x) =
    (x ++ "<br/>" ++ t "nodeType" ++ ": " ++
     t (messageKeyName (getNodeTypeName (Some conns) x)))%string.
Proof.
  split; [|reflexivity].
  rewrite getNodeTypeName_layer, names_of_graph. split.
  - intros H Hin. destruct (registered_layer conns x Hin) as (l & G & Hl).
    rewrite G in H. exact (keyOfLayer_known l Hl H).
  - intros H. destruct (aggregate_wf conns) as (_ & _ & _ & Hk).
    rewrite <- Hk in H.
    apply (get_None_keys String.eqb string_eqb_eq) in H. now rewrite H.
Qed.

Lemma find_by_id (l : list Node) (k i : nat) (n : Node) :
  map id l = seq k (List.length l) ->
  nth_error l i = Some n ->
  find (fun m => (id m =? k + i)%nat) l = Some n.
Proof.
  revert k i. induction l as [|h l IH]; intros k i Hs Hn.
  - destruct i; discriminate.
  - cbn [map List.length seq] in Hs. inversion Hs as [[Hh Hl]].
    destruct i as [|i].
    + simpl in Hn. inversion Hn. subst n. cbn [find].
      now rewrite Hh, Nat.add_0_r, Nat.eqb_refl.
    + simpl in Hn. cbn [find]. rewrite Hh.
      destruct (Nat.eqb_spec k (k + S i)); [lia|].
      replace (k + S i) with (S k + i) by lia.
      apply IH; [|assumption]. now rewrite <- Hh.
Qed.

Lemma findNode_in_graph (conns : list Connection) (i : nat) (n : Node) :
  nth_error (nodes (sankeyData (Some conns))) i = Some n ->
  findNode (nodes (sankeyData (Some conns))) i = Some n.
Proof.
  intros H. unfold findNode. apply (find_by_id _ 0 i n); [|assumption].
  rewrite sankeyData_Some. cbn [nodes]. rewrite ids_of_nodes, length_map.
  apply aggregate_wf.
Qed.

(** The edge tooltip of a link of the graph always finds both ends: it
    shows the names of the two nodes, which are joined by an edge of the
    input, and the weight; the fallback without names is for links that
    are not links of the graph. *)
Theorem edge_tooltip_names_both_ends (t : string -> string)
        (conns : list Connection) (s d w : nat) :
  In (linkOf s d w) (links (sankeyData (Some conns))) ->
  exists x y,
    In (x, y) (flat_map namedEdges conns) /\
    w = count_occ namePair_eq_dec (flat_map namedEdges conns) (x, y) /\
    tooltipFormatter t (Some conns) (edgeParams s d w) =
      (x ++ " → " ++ y ++ "<br/>" ++ t "connectionCount" ++ ": " ++
       JS.String_ w)%string.
Proof.
  intros H. pose proof H as H'.
  rewrite sankeyData_Some in H'. cbn [links] in H'.
  destruct (link_named conns s d w H') as (x & y & He & Gx & Gy).
  destruct (node_at_id conns x s Gx) as (ns & Hns & _ & Hnx).
  destruct (node_at_id conns y d Gy) as (nd & Hnd & _ & Hny).
  exists x, y. split; [assumption|].
  destruct (namedEdges_registered conns (x, y) He) as [Rx Ry].
  cbn [fst snd] in Rx, Ry. split.
  - assert (Hs : s = nodeId (aggregate conns) x)
      by (unfold nodeId; now rewrite Gx).
    assert (Hd : d = nodeId (aggregate conns) y)
      by (unfold nodeId; now rewrite Gy).
    rewrite Hs, Hd in H.
    exact (proj2 (proj1 (named_link_iff conns x y w Rx Ry) H)).
  - unfold tooltipFormatter, edgeParams. cbn -[sankeyData String.append].
    rewrite (findNode_in_graph conns s ns Hns),
      (findNode_in_graph conns d nd Hnd), Hnx, Hny.
    reflexivity.
Qed.

Lemma edge_tooltip_names_both_ends_witness :
  tooltipFormatter (fun k => k)
    (Some [connection "10.0.0.1" "Match" ["HK"];
           connection "10.0.0.1" "Match" ["JP"]])
    (edgeParams 0 1 2)
  = "10.0.0.1 → Match<br/>connectionCount: 2".
Proof.
  destruct (edge_tooltip_names_both_ends (fun k => k)
              [connection "10.0.0.1" "Match" ["HK"];
               connection "10.0.0.1" "Match" ["JP"]] 0 1 2)
    as (x & y & _ & _ & _).
  - simpl. left. reflexivity.
  - reflexivity.
Defined.






(* ================================================================= *)
(** * Swipes *)

Lemma withActive_same (st : State) : withActive (activeMenuKey st) st = st.
Proof. now destruct st. Qed.

Lemma withActive_twice (k k' : MenuKey) (st : State) :
  withActive k (withActive k' st) = withActive k st.
Proof. reflexivity. Qed.

(** [findIndex] answers -1 for a key that is absent, and otherwise a
    position of the list that holds the key. *)
Lemma findIndex_range (items : list MenuKey) (k : MenuKey) :
  (JS.findIndex MenuKey_eqb k items = (-1)%Z /\ ~ In k items) \/
  (exists i, JS.findIndex MenuKey_eqb k items = Z.of_nat i /\
             nth_error items i = Some k).
Proof.
  induction items as [|x items IH]; [left; split; [reflexivity | intros []]|].
  cbn [JS.findIndex]. destruct (MenuKey_eqb x k) eqn:E.
  - apply MenuKey_eqb_eq in E. subst. right. exists 0. now split.
  - assert (Hne : x <> k).
    { intros ->. rewrite (proj2 (MenuKey_eqb_eq k k) eq_refl) in E.
      discriminate. }
    destruct IH as [[-> Hni] | (i & -> & Hi)].
    + left. split; [reflexivity|]. intros [H|H]; contradiction.
    + right. exists (S i). destruct (Z.ltb_spec (Z.of_nat i) 0); [lia|].
      split; [lia | exact Hi].
Qed.

Lemma nth_error_in_range {A : Type} (l : list A) (i : nat) :
  i < List.length l -> exists x, nth_error l i = Some x /\ In x l.
Proof.
  intros H. destruct (nth_error l i) as [x|] eqn:E.
  - exists x. split; [reflexivity|]. eapply nth_error_In; eauto.
  - apply nth_error_None in E. lia.
Qed.

Lemma getNextMenuKey_total (st : State) :
  (~ In (activeMenuKey st) (menuItems st) /\ getNextMenuKey st = Some st) \/
  (In (activeMenuKey st) (menuItems st) /\
   exists k, In k (menuItems st) /\
             getNextMenuKey st = Some (withActive k st)).
Proof.
  unfold getNextMenuKey, getCurrentMenuIndex.
  destruct (findIndex_range (menuItems st) (activeMenuKey st))
    as [[-> Hni] | (i & -> & Hi)].
  - left. now split.
  - right. split; [eapply nth_error_In; eauto|].
    assert (Hlt : i < List.length (menuItems st))
      by (apply nth_error_Some; congruence).
    destruct (Z.eqb_spec (Z.of_nat i) (-1)); [lia|].
    replace (Z.of_nat i + 1)%Z with (Z.of_nat (i + 1)) by lia.
    rewrite rem_of_nat, indexZ_of_nat by lia.
    destruct (nth_error_in_range (menuItems st)
                ((i + 1) mod List.length (menuItems st)))
      as (k & -> & Hk); [apply Nat.mod_upper_bound; lia|].
    exists k. now split.
Qed.

Lemma getPrevMenuKey_total (st : State) :
  (~ In (activeMenuKey st) (menuItems st) /\ getPrevMenuKey st = Some st) \/
  (In (activeMenuKey st) (menuItems st) /\
   exists k, In k (menuItems st) /\
             getPrevMenuKey st = Some (withActive k st)).
Proof.
  unfold getPrevMenuKey, getCurrentMenuIndex.
  destruct (findIndex_range (menuItems st) (activeMenuKey st))
    as [[-> Hni] | (i & -> & Hi)].
  - left. now split.
  - right. split; [eapply nth_error_In; eauto|].
    assert (Hlt : i < List.length (menuItems st))
      by (apply nth_error_Some; congruence).
    destruct (Z.eqb_spec (Z.of_nat i) (-1)); [lia|].
    replace (Z.of_nat i - 1 + Z.of_nat (List.length (menuItems st)))%Z
      with (Z.of_nat (i + List.length (menuItems st) - 1)) by lia.
    rewrite rem_of_nat, indexZ_of_nat by lia.
    destruct (nth_error_in_range (menuItems st)
                ((i + List.length (menuItems st) - 1)
                   mod List.length (menuItems st)))
      as (k & -> & Hk); [apply Nat.mod_upper_bound; lia|].
    exists k. now split.
Qed.

(** A swipe never fails, whatever the menu and the active key: the two
    cycling functions never read past the menu.  It changes at most the
    active key; a key of the menu is replaced by a key of the menu, and a
    key that is not in the menu stays.  A swipe up, down or none, and any
    swipe that is not let through, changes nothing. *)
Theorem swipe_never_fails (direction : Direction) (doc : Document)
        (st : State) :
  exists st',
    onDirection direction doc st = Some st' /\
    sameButActive st st' /\
    (In (activeMenuKey st) (menuItems st) ->
     In (activeMenuKey st') (menuItems st)) /\
    (~ In (activeMenuKey st) (menuItems st) -> st' = st) /\
    (swipeAllowed doc st = false -> st' = st) /\
    (direction <> swipeLeft -> direction <> swipeRight -> st' = st).
Proof.
  assert (Same : exists st', Some st = Some st' /\ sameButActive st st' /\
            (In (activeMenuKey st) (menuItems st) ->
             In (activeMenuKey st') (menuItems st)) /\
            (~ In (activeMenuKey st) (menuItems st) -> st' = st) /\
            (swipeAllowed doc st = false -> st' = st) /\
            (direction <> swipeLeft -> direction <> swipeRight -> st' = st)).
  { exists st. unfold sameButActive. rewrite withActive_same. tauto. }
  unfold onDirection.
  destruct (isMiddleScreen st) eqn:M; cbn [negb]; [|exact Same].
  destruct (dialogModal doc || inputActive doc
            || JS.truthy_number (selectionLength doc)) eqn:G; [exact Same|].
  assert (A : swipeAllowed doc st = true)
    by (unfold swipeAllowed; now rewrite M, G).
  destruct direction; try exact Same.
  - destruct (getNextMenuKey_total st) as [[Hni ->] | (Hin & k & Hk & ->)];
      [exact Same|].
    exists (withActive k st). split; [reflexivity|].
    split; [reflexivity|]. split; [intros _; exact Hk|].
    split; [intros H; contradiction|]. split; [congruence|].
    intros H; contradiction.
  - destruct (getPrevMenuKey_total st) as [[Hni ->] | (Hin & k & Hk & ->)];
      [exact Same|].
    exists (withActive k st). split; [reflexivity|].
    split; [reflexivity|]. split; [intros _; exact Hk|].
    split; [intros H; contradiction|]. split; [congruence|].
    intros _ H; contradiction.
Qed.

Lemma next_at (st : State) (i : nat) :
  NoDup (menuItems st) ->
  nth_error (menuItems st) i = Some (activeMenuKey st) ->
  exists k,
    nth_error (menuItems st) ((i + 1) mod List.length (menuItems st)) = Some k /\
    getNextMenuKey st = Some (withActive k st).
Proof.
  intros Hnd Hi.
  assert (Hlt : i < List.length (menuItems st))
    by (apply nth_error_Some; congruence).
  unfold getNextMenuKey, getCurrentMenuIndex.
  rewrite (findIndex_NoDup _ i _ Hnd Hi).
  destruct (Z.eqb_spec (Z.of_nat i) (-1)); [lia|].
  replace (Z.of_nat i + 1)%Z with (Z.of_nat (i + 1)) by lia.
  rewrite rem_of_nat, indexZ_of_nat by lia.
  destruct (nth_error_in_range (menuItems st)
              ((i + 1) mod List.length (menuItems st)))
    as (k & Hk & _); [apply Nat.mod_upper_bound; lia|].
  exists k. rewrite Hk. now split.
Qed.

Lemma prev_at (st : State) (i : nat) :
  NoDup (menuItems st) ->
  nth_error (menuItems st) i = Some (activeMenuKey st) ->
  exists k,
    nth_error (menuItems st)
      ((i + (List.length (menuItems st) - 1)) mod List.length (menuItems st))
    = Some k /\
    getPrevMenuKey st = Some (withActive k st).
Proof.
  intros Hnd Hi.
  assert (Hlt : i < List.length (menuItems st))
    by (apply nth_error_Some; congruence).
  unfold getPrevMenuKey, getCurrentMenuIndex.
  rewrite (findIndex_NoDup _ i _ Hnd Hi).
  destruct (Z.eqb_spec (Z.of_nat i) (-1)); [lia|].
  replace (Z.of_nat i - 1 + Z.of_nat (List.length (menuItems st)))%Z
    with (Z.of_nat (i + (List.length (menuItems st) - 1))) by lia.
  rewrite rem_of_nat, indexZ_of_nat by lia.
  destruct (nth_error_in_range (menuItems st)
              ((i + (List.length (menuItems st) - 1))
                 mod List.length (menuItems st)))
    as (k & Hk & _); [apply Nat.mod_upper_bound; lia|].
  exists k. rewrite Hk. now split.
Qed.

Lemma succ_pred_mod (i n : nat) :
  i < n -> ((i + 1) mod n + (n - 1)) mod n = i.
Proof.
  intros H. rewrite Nat.Div0.add_mod_idemp_l.
  replace (i + 1 + (n - 1)) with (i + 1 * n) by lia.
  rewrite Nat.Div0.mod_add. now apply Nat.mod_small.
Qed.

Lemma pred_succ_mod (i n : nat) :
  i < n -> ((i + (n - 1)) mod n + 1) mod n = i.
Proof.
  intros H. rewrite Nat.Div0.add_mod_idemp_l.
  replace (i + (n - 1) + 1) with (i + 1 * n) by lia.
  rewrite Nat.Div0.mod_add. now apply Nat.mod_small.
Qed.

(** "Next" and "previous" undo each other: on a duplicate-free menu that
    holds the active key, going to the next key and then to the previous
    one gives back the state one started from, and so does the other
    order. *)
Theorem next_and_previous_undo (st : State) :
  NoDup (menuItems st) ->
  In (activeMenuKey st) (menuItems st) ->
  (exists st1, getNextMenuKey st = Some st1 /\ getPrevMenuKey st1 = Some st) /\
  (exists st2, getPrevMenuKey st = Some st2 /\ getNextMenuKey st2 = Some st).
Proof.
  intros Hnd Hin. apply In_nth_error in Hin. destruct Hin as [i Hi].
  assert (Hlt : i < List.length (menuItems st))
    by (apply nth_error_Some; congruence).
  split.
  - destruct (next_at st i Hnd Hi) as (k & Hk & Hn).
    exists (withActive k st). split; [assumption|].
    destruct (prev_at (withActive k st) _ Hnd Hk) as (k' & Hk' & Hp).
    cbn [menuItems withActive] in Hk'. rewrite succ_pred_mod in Hk' by assumption.
    rewrite Hp, withActive_twice.
    assert (k' = activeMenuKey st) by congruence. subst k'.
    now rewrite withActive_same.
  - destruct (prev_at st i Hnd Hi) as (k & Hk & Hp).
    exists (withActive k st). split; [assumption|].
    destruct (next_at (withActive k st) _ Hnd Hk) as (k' & Hk' & Hn).
    cbn [menuItems withActive] in Hk'. rewrite pred_succ_mod in Hk' by assumption.
    rewrite Hn, withActive_twice.
    assert (k' = activeMenuKey st) by congruence. subst k'.
    now rewrite withActive_same.
Qed.

Lemma NoDup_real_menu (split : bool) : NoDup (menuItemsOf split).
Proof.
  destruct split; repeat constructor; simpl; intuition discriminate.
Qed.

Lemma next_and_previous_undo_witness :
  exists st1,
    getNextMenuKey (withActive overview (initial true true true)) = Some st1 /\
    activeMenuKey st1 = general /\
    getPrevMenuKey st1 = Some (withActive overview (initial true true true)).
Proof.
  destruct (next_and_previous_undo
              (withActive overview (initial true true true))
              (NoDup_real_menu true))
    as [(st1 & Hn & Hp) _].
  - simpl. tauto.
  - exists st1. split; [exact Hn|]. split; [|exact Hp].
    simpl in Hn. inversion Hn. reflexivity.
Defined.

Lemma onDirection_left (st : State) :
  isMiddleScreen st = true ->
  onDirection swipeLeft freeDocument st = getNextMenuKey st.
Proof. intros H. unfold onDirection. now rewrite H. Qed.

Lemma onDirection_right (st : State) :
  isMiddleScreen st = true ->
  onDirection swipeRight freeDocument st = getPrevMenuKey st.
Proof. intros H. unfold onDirection. now rewrite H. Qed.

Lemma swipes_left_at (j : nat) (st : State) (i : nat) :
  NoDup (menuItems st) -> isMiddleScreen st = true ->
  nth_error (menuItems st) i = Some (activeMenuKey st) ->
  exists k,
    nth_error (menuItems st) ((i + j) mod List.length (menuItems st)) = Some k /\
    swipes swipeLeft freeDocument j st = Some (withActive k st).
Proof.
  revert st i. induction j as [|j IH]; intros st i Hnd Hm Hi.
  - assert (Hlt : i < List.length (menuItems st))
      by (apply nth_error_Some; congruence).
    exists (activeMenuKey st). rewrite Nat.add_0_r, Nat.mod_small by assumption.
    split; [assumption|]. simpl. now rewrite withActive_same.
  - destruct (next_at st i Hnd Hi) as (k1 & Hk1 & Hn).
    cbn [swipes]. rewrite onDirection_left, Hn by assumption.
    destruct (IH (withActive k1 st) _ Hnd Hm Hk1) as (k & Hk & Hs).
    cbn [menuItems withActive] in Hk.
    rewrite Nat.Div0.add_mod_idemp_l in Hk.
    replace (i + 1 + j) with (i + S j) in Hk by lia.
    exists k. split; [assumption|]. now rewrite Hs, withActive_twice.
Qed.

Lemma swipes_right_at (j : nat) (st : State) (i : nat) :
  NoDup (menuItems st) -> isMiddleScreen st = true ->
  nth_error (menuItems st) i = Some (activeMenuKey st) ->
  exists k,
    nth_error (menuItems st)
      ((i + j * (List.length (menuItems st) - 1))
         mod List.length (menuItems st)) = Some k /\
    swipes swipeRight freeDocument j st = Some (withActive k st).
Proof.
  revert st i. induction j as [|j IH]; intros st i Hnd Hm Hi.
  - assert (Hlt : i < List.length (menuItems st))
      by (apply nth_error_Some; congruence).
    exists (activeMenuKey st).
    rewrite Nat.mul_0_l, Nat.add_0_r, Nat.mod_small by assumption.
    split; [assumption|]. simpl. now rewrite withActive_same.
  - destruct (prev_at st i Hnd Hi) as (k1 & Hk1 & Hp).
    cbn [swipes]. rewrite onDirection_right, Hp by assumption.
    destruct (IH (withActive k1 st) _ Hnd Hm Hk1) as (k & Hk & Hs).
    cbn [menuItems withActive] in Hk.
    rewrite Nat.Div0.add_mod_idemp_l in Hk.
    replace (i + (List.length (menuItems st) - 1)
             + j * (List.length (menuItems st) - 1))
      with (i + S j * (List.length (menuItems st) - 1)) in Hk by lia.
    exists k. split; [assumption|]. now rewrite Hs, withActive_twice.
Qed.

(** Swipes come round: on a middle screen, with a duplicate-free menu of
    [n] keys that holds the active key, [n] swipes to the left, or [n] to
    the right, give back the state one started from, and fewer swipes to
    the left (at least one) end on another key. *)
Theorem swipes_come_round (st : State) :
  NoDup (menuItems st) ->
  In (activeMenuKey st) (menuItems st) ->
  isMiddleScreen st = true ->
  let n := List.length (menuItems st) in
  swipes swipeLeft freeDocument n st = Some st /\
  swipes swipeRight freeDocument n st = Some st /\
  (forall j st', 0 < j -> j < n ->
     swipes swipeLeft freeDocument j st = Some st' ->
     activeMenuKey st' <> activeMenuKey st).
Proof.
  intros Hnd Hin Hm n. apply In_nth_error in Hin. destruct Hin as [i Hi].
  assert (Hlt : i < n) by (apply nth_error_Some; congruence).
  split; [|split].
  - destruct (swipes_left_at n st i Hnd Hm Hi) as (k & Hk & ->).
    fold n in Hk. replace (i + n) with (i + 1 * n) in Hk by lia.
    rewrite Nat.Div0.mod_add, Nat.mod_small in Hk by assumption.
    assert (k = activeMenuKey st) by congruence. subst k.
    now rewrite withActive_same.
  - destruct (swipes_right_at n st i Hnd Hm Hi) as (k & Hk & ->).
    fold n in Hk. replace (i + n * (n - 1)) with (i + (n - 1) * n) in Hk by lia.
    rewrite Nat.Div0.mod_add, Nat.mod_small in Hk by assumption.
    assert (k = activeMenuKey st) by congruence. subst k.
    now rewrite withActive_same.
  - intros j st' Hj Hjn Hs.
    destruct (swipes_left_at j st i Hnd Hm Hi) as (k & Hk & Hs').
    rewrite Hs in Hs'. inversion Hs'. subst st'. cbn [activeMenuKey withActive].
    intros E. subst k. fold n in Hk.
    assert (Heq : (i + j) mod n = i).
    { apply (proj1 (NoDup_nth_error (menuItems st)) Hnd);
        [apply Nat.mod_upper_bound; lia | congruence]. }
    destruct (Nat.lt_ge_cases (i + j) n) as [Hs1|Hs1].
    + rewrite Nat.mod_small in Heq by assumption. lia.
    + replace (i + j) with (i + j - n + 1 * n) in Heq by lia.
      rewrite Nat.Div0.mod_add, Nat.mod_small in Heq by lia. lia.
Qed.

Lemma swipes_come_round_witness :
  swipes swipeLeft freeDocument 5 (initial false true true)
  = Some (initial false true true).
Proof.
  refine (proj1 (swipes_come_round (initial false true true)
                   (NoDup_real_menu false) _ eq_refl)).
  simpl. tauto.
Defined.

(* ================================================================= *)
(** * Further properties of the visibility selector *)

Lemma observe_NoDup (k : MenuKey) (r : Q) (m : JSMap.t MenuKey Q) :
  NoDup (JSMap.keys m) -> NoDup (JSMap.keys (observe k r m)).
Proof.
  intros H. unfold observe. destruct (Qgtb r 0).
  - now apply (NoDup_keys_set MenuKey_eqb MenuKey_eqb_eq).
  - now apply (NoDup_keys_delete MenuKey_eqb).
Qed.

Lemma step_ratios (st : State) (e : Event) :
  visibilityRatios (step st e) =
  match e with
  | Observe k r => observe k r (visibilityRatios st)
  | Setup => []
  | Elapse _ => visibilityRatios st
  end.
Proof.
  destruct e; cbn [step].
  - apply onIntersection_ratios.
  - reflexivity.
  - apply elapse_ratios.
Qed.

Lemma latest_cons (k : MenuKey) (e : Event) (events : list Event)
      (start : option Q) :
  latest k (e :: events) start =
  latest k events
    match e with
    | Observe k' r =>
        if MenuKey_eqb k' k
        then (if Qgtb r 0 then Some r else None)
        else start
    | Setup => None
    | Elapse _ => start
    end.
Proof. reflexivity. Qed.

Lemma latest_run (k : MenuKey) (events : list Event) (st : State) :
  NoDup (JSMap.keys (visibilityRatios st)) ->
  JSMap.get MenuKey_eqb k (visibilityRatios (run events st)) =
  latest k events (JSMap.get MenuKey_eqb k (visibilityRatios st)).
Proof.
  revert st. induction events as [|e events IH]; intros st Hnd; [reflexivity|].
  rewrite latest_cons.
  change (run (e :: events) st) with (run events (step st e)).
  rewrite IH.
  - apply f_equal. rewrite step_ratios. destruct e as [k' r| |ms];
      try reflexivity.
    destruct (MenuKey_eqb k' k) eqn:E.
    + apply MenuKey_eqb_eq in E. subst k'. unfold observe.
      destruct (Qgtb r 0).
      * apply (get_set_same MenuKey_eqb MenuKey_eqb_eq).
      * now apply (get_delete_same MenuKey_eqb MenuKey_eqb_eq).
    + apply observe_other. intros ->.
      rewrite (proj2 (MenuKey_eqb_eq k k) eq_refl) in E. discriminate.
  - rewrite step_ratios. destruct e as [k' r| |ms].
    + now apply observe_NoDup.
    + constructor.
    + assumption.
Qed.

(** The content of the visibility map: after any events since the page was
    mounted, a key holds the ratio of its latest observation since the
    observed keys were last replaced, when that ratio is above 0, and is
    absent otherwise; timeouts play no part. *)
Theorem map_holds_latest_ratios (split middle container : bool)
        (events : list Event) (k : MenuKey) :
  JSMap.get MenuKey_eqb k
    (visibilityRatios (run events (initial split middle container))) =
  latest k events None.
Proof. apply (latest_run k events (initial split middle container)). constructor. Qed.

Lemma updateActive_cases (st : State) :
  updateActiveMenuByVisibility st = st \/
  exists k,
    negb (isMiddleScreen st) || negb (scrollContainerRef st) = false /\
    selectMostVisible (visibilityRatios st) = Some k /\
    updateActiveMenuByVisibility st = withActive k st.
Proof.
  unfold updateActiveMenuByVisibility.
  destruct (negb (isMiddleScreen st) || negb (scrollContainerRef st));
    [now left|].
  destruct (selectMostVisible (visibilityRatios st)) as [k|]; [|now left].
  destruct (negb (MenuKey_eqb k (activeMenuKey st))); [|now left].
  right. exists k. auto.
Qed.

(** Recomputing twice is recomputing once: [updateActiveMenuByVisibility]
    applied to its own result changes nothing. *)
Theorem recomputation_is_idempotent (st : State) :
  updateActiveMenuByVisibility (updateActiveMenuByVisibility st) =
  updateActiveMenuByVisibility st.
Proof.
  destruct (updateActive_cases st) as [H | (k & G & S & H)].
  - now rewrite !H.
  - rewrite H. unfold updateActiveMenuByVisibility.
    cbn [isMiddleScreen scrollContainerRef visibilityRatios activeMenuKey
         withActive].
    rewrite G, S, (proj2 (MenuKey_eqb_eq k k) eq_refl). reflexivity.
Qed.



Lemma last_snoc_Some {A : Type} (l : list A) (x : A) :
  last (map Some (l ++ [x])) None = Some x.
Proof. rewrite map_app. simpl. now rewrite last_last. Qed.

Lemma settled_step (st : State) (e : Event) :
  timerInv st ->
  (timers st = [] ->
   visibilityRatios st = [] \/ lastRecomputed st = Some (visibilityRatios st)) ->
  timers (step st e) = [] ->
  visibilityRatios (step st e) = [] \/
  lastRecomputed (step st e) = Some (visibilityRatios (step st e)).
Proof.
  intros Hinv IH. destruct e as [k r| |ms]; cbn [step].
  - rewrite onIntersection_spec by assumption. simpl. discriminate.
  - intros _. now left.
  - destruct Hinv as [_ [[Ht _] | (tid & due & Ht & _)]].
    + rewrite elapse_idle by assumption. intros _. exact (IH Ht).
    + destruct (Nat.le_gt_cases due (now st + ms)) as [Hle|Hgt].
      * rewrite (elapse_fire ms tid due st Ht Hle). intros _. right.
        set (s := withNow _ _).
        destruct (timerCallback_fields s) as (Hv & _ & _ & _ & _ & Hr).
        unfold lastRecomputed. rewrite Hr, Hv. apply last_snoc_Some.
      * rewrite (elapse_early ms tid due st Ht Hgt). simpl. rewrite Ht.
        discriminate.
Qed.

Lemma settled_run (events : list Event) (st : State) :
  timerInv st ->
  (timers st = [] ->
   visibilityRatios st = [] \/ lastRecomputed st = Some (visibilityRatios st)) ->
  timers (run events st) = [] ->
  visibilityRatios (run events st) = [] \/
  lastRecomputed (run events st) = Some (visibilityRatios (run events st)).
Proof.
  revert st. induction events as [|e events IH]; intros st Hinv H;
    [exact H|].
  cbn [run fold_left]. apply IH.
  - now apply timerInv_step.
  - now apply settled_step.
Qed.

(** No decision is left stale: in every reachable state in which no
    timeout is pending, the visibility map is empty or it is the very map
    that the latest recomputation read. *)
Theorem no_stale_decision (split middle container : bool)
        (history : list Event) :
  let st := run history (initial split middle container) in
  timers st = [] ->
  visibilityRatios st = [] \/
  lastRecomputed st = Some (visibilityRatios st).
Proof.
  intros st. apply settled_run; [apply timerInv_initial|].
  intros _. now left.
Qed.

Lemma no_stale_decision_witness :
  lastRecomputed
    (run [Observe general ratio_0_5; Elapse 60; Observe backend ratio_0_35;
          Elapse 100] (initial true true true))
  = Some [(general, ratio_0_5); (backend, ratio_0_35)].
Proof.
  destruct (no_stale_decision true true true
              [Observe general ratio_0_5; Elapse 60;
               Observe backend ratio_0_35; Elapse 100] eq_refl) as [H|H].
  - discriminate H.
  - exact H.
Defined.
